(** * Drawing lock notifier: the Socket.IO client of the CAD drawing manager

    A shallow embedding of the [WebSocketClient] class (the frontend's
    WebSocket client module) and the properties of its subscription
    registry, its connection handle and its dispatch of the two server
    events [drawing_locked] and [drawing_unlocked].

    Modelling choices.
    - [this.socket] is a reference: sockets live in a heap of socket
      objects, [io] allocates a fresh one, and the transport, which shares
      the object with the client, flips its [connected] flag.  The URL and
      the options handed to [io] go to the library untouched and play no
      part in the logic of the class; they are left out.
    - [this.subscriptions] is a [Map<string, DrawingEventHandler[]>]: a
      [gmap] from drawing ids to the list of handlers in push order.
    - A handler is a JavaScript function value; it is represented by its
      identity.  Calling it is recorded in the trace of observable effects,
      next to socket creation, emitted messages and console output.  What
      the body of a handler does is outside the class: a handler is taken
      to return to the [forEach] that called it, without calling back into
      the client while the dispatch runs.
    - Methods and listeners are computations in a state monad over the
      world, with an outcome that is either a normal return or a thrown
      error (the only candidate is the non-null assertion on
      [subscriptions.get(drawingId)!]).
    - The environment is over-approximated: the transport may set the
      [connected] flag of any socket at any time, and any socket may
      deliver any inbound message at any time.

    The module [PDFViewer] at the end embeds the paging, the rotation and
    the loading of the PDF viewer component. *)

From stdpp Require Import base option list strings gmap fin_maps.

Open Scope string_scope.
Open Scope list_scope.

(** ** Data model *)

(** [type DrawingEventHandler = (data: DrawingEventData) => void] *)
Definition DrawingEventHandler : Type := nat.

Inductive EventType : Type := locked | unlocked.

(** [interface DrawingEventData] *)
Record DrawingEventData : Type := {
  type : EventType;
  drawing_id : string;
  locked_by : option string;
}.

(** The part of a Socket.IO [Socket] the class reads or writes. *)
Record SocketObj : Type := {
  connected : bool;
  listeners : list string;
}.

(** [class WebSocketClient]: its two private fields. *)
Record WebSocketClient : Type := {
  socket : option nat;
  subscriptions : gmap string (list DrawingEventHandler);
}.

Inductive Effect : Type :=
| Io (k : nat)
| SocketDisconnect (k : nat)
| Emit (k : nat) (event : string) (drawingId : string)
| Call (handler : DrawingEventHandler) (data : DrawingEventData)
| ConsoleLog (msg : string)
| ConsoleError (msg : string) (error : string).

Record World : Type := {
  this : WebSocketClient;
  heap : list SocketObj;
  trace : list Effect;
}.

(** [export const websocketClient = new WebSocketClient()] *)
Definition websocketClient : WebSocketClient :=
  {| socket := None; subscriptions := ∅ |}.

Definition initial : World :=
  {| this := websocketClient; heap := []; trace := [] |}.

#[global] Instance EventType_eq_dec : EqDecision EventType.
Proof. solve_decision. Defined.
#[global] Instance DrawingEventData_eq_dec : EqDecision DrawingEventData.
Proof. solve_decision. Defined.
#[global] Instance Effect_eq_dec : EqDecision Effect.
Proof. solve_decision. Defined.

(** ** The monad of methods *)

Inductive Outcome (A : Type) : Type :=
| Returned (a : A)
| Threw (e : string).
Arguments Returned {A} a.
Arguments Threw {A} e.

Definition M (A : Type) : Type := World → Outcome A * World.

#[global] Instance M_ret : MRet M := λ A a w, (Returned a, w).
#[global] Instance M_bind : MBind M := λ A B f m w,
  match m w with
  | (Returned a, w') => f a w'
  | (Threw e, w') => (Threw e, w')
  end.

Definition throw {A : Type} (e : string) : M A := λ w, (Threw e, w).

(** The world a computation leaves behind, whatever its outcome. *)
Definition after {A : Type} (m : M A) (w : World) : World := (m w).2.

(** The effects a computation adds to the trace of [w]. *)
Definition emitted {A : Type} (m : M A) (w : World) : list Effect :=
  drop (length (trace w)) (trace (after m w)).

(** ** Primitive operations *)

Definition log (e : Effect) : M unit := λ w,
  (Returned tt, {| this := this w; heap := heap w; trace := trace w ++ [e] |}).

Definition get_socket : M (option nat) := λ w, (Returned (socket (this w)), w).

Definition set_socket (s : option nat) : M unit := λ w,
  (Returned tt,
   {| this := {| socket := s; subscriptions := subscriptions (this w) |};
      heap := heap w; trace := trace w |}).

Definition set_subscriptions (m : gmap string (list DrawingEventHandler)) : M unit :=
  λ w,
  (Returned tt,
   {| this := {| socket := socket (this w); subscriptions := m |};
      heap := heap w; trace := trace w |}).

Definition set_heap (h : list SocketObj) : M unit := λ w,
  (Returned tt, {| this := this w; heap := h; trace := trace w |}).

(** [socket.connected] *)
Definition socket_connected (k : nat) : M bool := λ w,
  (Returned (default false (connected <$> heap w !! k)), w).

(** [this.socket?.connected] where a boolean is expected: [undefined] is
    falsy. *)
Definition this_socket_connected : M bool :=
  s ← get_socket;
  match s with
  | Some k => socket_connected k
  | None => mret false
  end.

(** [io(url, options)] of socket.io-client: a new socket object, not yet
    connected; the handshake completes later, on the transport's side. *)
Definition io : M nat := λ w,
  let k := length (heap w) in
  (Returned k,
   {| this := this w;
      heap := heap w ++ [{| connected := false; listeners := [] |}];
      trace := trace w ++ [Io k] |}).

(** [socket.on(event, listener)] *)
Definition socket_on (k : nat) (event : string) : M unit := λ w,
  (Returned tt,
   {| this := this w;
      heap := alter (λ o, {| connected := connected o;
                             listeners := listeners o ++ [event] |}) k (heap w);
      trace := trace w |}).

(** [socket.disconnect()] *)
Definition socket_disconnect (k : nat) : M unit := λ w,
  (Returned tt,
   {| this := this w;
      heap := alter (λ o, {| connected := false; listeners := listeners o |}) k (heap w);
      trace := trace w ++ [SocketDisconnect k] |}).

(** [socket.emit(event, { drawing_id: drawingId })] *)
Definition socket_emit (k : nat) (event drawingId : string) : M unit :=
  log (Emit k event drawingId).

(** [this.subscriptions.get(id)], [.has(id)], [.set(id, l)], [.delete(id)],
    [.clear()] *)
Definition subscriptions_get (id : string) : M (option (list DrawingEventHandler)) :=
  λ w, (Returned (subscriptions (this w) !! id), w).

Definition subscriptions_has (id : string) : M bool :=
  λ w, (Returned (bool_decide (is_Some (subscriptions (this w) !! id))), w).

Definition subscriptions_set (id : string) (l : list DrawingEventHandler) : M unit :=
  λ w, set_subscriptions (<[id := l]> (subscriptions (this w))) w.

Definition subscriptions_delete (id : string) : M unit :=
  λ w, set_subscriptions (delete id (subscriptions (this w))) w.

Definition subscriptions_clear : M unit := set_subscriptions ∅.

(** [handler(data)] *)
Definition call (handler : DrawingEventHandler) (data : DrawingEventData) : M unit :=
  log (Call handler data).

(** [array.forEach(f)] *)
Fixpoint forEach {A : Type} (l : list A) (f : A → M unit) : M unit :=
  match l with
  | [] => mret tt
  | x :: l' => f x;; forEach l' f
  end.

(** ** Listeners installed by [connect] *)

Definition on_connect : M unit := log (ConsoleLog "[WebSocket] Connected").

Definition on_disconnect : M unit := log (ConsoleLog "[WebSocket] Disconnected").

Definition on_drawing_locked (id by_user : string) : M unit :=
  handlers ← subscriptions_get id;
  match handlers with
  | Some hs =>
      forEach hs (λ handler,
        call handler {| type := locked; drawing_id := id; locked_by := Some by_user |})
  | None => mret tt
  end.

Definition on_drawing_unlocked (id : string) : M unit :=
  handlers ← subscriptions_get id;
  match handlers with
  | Some hs =>
      forEach hs (λ handler,
        call handler {| type := unlocked; drawing_id := id; locked_by := None |})
  | None => mret tt
  end.

Definition on_error (error : string) : M unit :=
  log (ConsoleError "[WebSocket] Error:" error).

(** ** Methods of [WebSocketClient] *)

Definition connect : M unit :=
  c ← this_socket_connected;
  if c : bool then mret tt
  else
    k ← io;
    set_socket (Some k);;
    socket_on k "connect";;
    socket_on k "disconnect";;
    socket_on k "drawing_locked";;
    socket_on k "drawing_unlocked";;
    socket_on k "error".

Definition disconnect : M unit :=
  s ← get_socket;
  match s with
  | Some k =>
      socket_disconnect k;;
      set_socket None;;
      subscriptions_clear
  | None => mret tt
  end.

Definition subscribeDrawing (drawingId : string) (handler : DrawingEventHandler) : M unit :=
  c ← this_socket_connected;
  (if c : bool then mret tt else connect);;
  has ← subscriptions_has drawingId;
  (if has : bool then mret tt else subscriptions_set drawingId []);;
  l ← subscriptions_get drawingId;
  match l with
  | Some hs => subscriptions_set drawingId (hs ++ [handler])
  | None => throw "TypeError: Cannot read properties of undefined (reading 'push')"
  end;;
  s ← get_socket;
  match s with
  | Some k => socket_emit k "subscribe_drawing" drawingId
  | None => mret tt
  end.

Definition unsubscribeDrawing (drawingId : string) : M unit :=
  subscriptions_delete drawingId;;
  s ← get_socket;
  match s with
  | Some k => socket_emit k "unsubscribe_drawing" drawingId
  | None => mret tt
  end.

(** [return this.socket?.connected ?? false] *)
Definition isConnected : M bool :=
  s ← get_socket;
  match s with
  | Some k => socket_connected k
  | None => mret false
  end.

(** ** Runs of the client

    What can happen to the singleton: a caller invokes a method, the
    transport changes the [connected] flag of a socket it shares with the
    client, or a socket delivers an inbound message to the listeners that
    [connect] installed on it. *)

Inductive Inbound : Type :=
| InConnect
| InDisconnect
| InDrawingLocked (id by_user : string)
| InDrawingUnlocked (id : string)
| InError (error : string).

Definition event_name (msg : Inbound) : string :=
  match msg with
  | InConnect => "connect"
  | InDisconnect => "disconnect"
  | InDrawingLocked _ _ => "drawing_locked"
  | InDrawingUnlocked _ => "drawing_unlocked"
  | InError _ => "error"
  end.

Definition listener (msg : Inbound) : M unit :=
  match msg with
  | InConnect => on_connect
  | InDisconnect => on_disconnect
  | InDrawingLocked id by_user => on_drawing_locked id by_user
  | InDrawingUnlocked id => on_drawing_unlocked id
  | InError error => on_error error
  end.

(** Socket [k] receives [msg]: every listener registered on it for the
    event of [msg] runs. *)
Definition deliver (k : nat) (msg : Inbound) : M unit := λ w,
  match heap w !! k with
  | Some o =>
      forEach (filter (λ ev, ev = event_name msg) (listeners o)) (λ _, listener msg) w
  | None => (Returned tt, w)
  end.

(** The transport sets the [connected] flag of socket [k]. *)
Definition transport (k : nat) (up : bool) : M unit := λ w,
  set_heap (alter (λ o, {| connected := up; listeners := listeners o |}) k (heap w)) w.

Inductive Op : Type :=
| OpConnect
| OpDisconnect
| OpSubscribeDrawing (drawingId : string) (handler : DrawingEventHandler)
| OpUnsubscribeDrawing (drawingId : string)
| OpIsConnected
| OpTransport (k : nat) (up : bool)
| OpDeliver (k : nat) (msg : Inbound).

Definition step (op : Op) : M unit :=
  match op with
  | OpConnect => connect
  | OpDisconnect => disconnect
  | OpSubscribeDrawing d h => subscribeDrawing d h
  | OpUnsubscribeDrawing d => unsubscribeDrawing d
  | OpIsConnected => isConnected;; mret tt
  | OpTransport k up => transport k up
  | OpDeliver k msg => deliver k msg
  end.

Definition run (ops : list Op) (w : World) : World :=
  foldl (λ w op, after (step op) w) w ops.

(** The worlds the program can be in. *)
Definition reachable (w : World) : Prop := ∃ ops, w = run ops initial.

(** ** Notions used in the statements *)

Definition add_trace (es : list Effect) (w : World) : World :=
  {| this := this w; heap := heap w; trace := trace w ++ es |}.

(** The handlers in the registry list of a drawing id; none when the id has
    no entry. *)
Definition registered (id : string) (w : World) : list DrawingEventHandler :=
  default [] (subscriptions (this w) !! id).

(** The socket object [connect] leaves in the heap. *)
Definition fresh_socket : SocketObj :=
  {| connected := false;
     listeners := ["connect"; "disconnect"; "drawing_locked"; "drawing_unlocked"; "error"] |}.

(** The world after [connect] had to open a socket. *)
Definition opened (w : World) : World :=
  {| this := {| socket := Some (length (heap w));
                subscriptions := subscriptions (this w) |};
     heap := heap w ++ [fresh_socket];
     trace := trace w ++ [Io (length (heap w))] |}.

(** The world in which [subscribeDrawing] registers the handler: [w] itself
    when the socket is connected, and the world with a newly opened socket
    otherwise. *)
Definition ensured (w : World) : World :=
  match isConnected w with
  | (Returned true, _) => w
  | _ => opened w
  end.

(** What a listener adds to the trace. *)
Definition listener_effects (msg : Inbound) (w : World) : list Effect :=
  match msg with
  | InConnect => [ConsoleLog "[WebSocket] Connected"]
  | InDisconnect => [ConsoleLog "[WebSocket] Disconnected"]
  | InDrawingLocked id by_user =>
      map (λ handler,
             Call handler {| type := locked; drawing_id := id; locked_by := Some by_user |})
          (registered id w)
  | InDrawingUnlocked id =>
      map (λ handler,
             Call handler {| type := unlocked; drawing_id := id; locked_by := None |})
          (registered id w)
  | InError error => [ConsoleError "[WebSocket] Error:" error]
  end.

(** How often socket [k] runs the listener of [msg]: once per listener
    registered for the event. *)
Definition fires (k : nat) (msg : Inbound) (w : World) : nat :=
  match heap w !! k with
  | Some o => length (filter (λ ev, ev = event_name msg) (listeners o))
  | None => 0
  end.

(** How often [handler] is called with [data] among the effects [es]. *)
Definition times_called (handler : DrawingEventHandler) (data : DrawingEventData)
    (es : list Effect) : nat :=
  count_occ Effect_eq_dec es (Call handler data).

(** How often [handler] stands in a registry list. *)
Definition times_registered (handler : DrawingEventHandler)
    (hs : list DrawingEventHandler) : nat :=
  count_occ Nat.eq_dec hs handler.

Definition locked_event (id by_user : string) : DrawingEventData :=
  {| type := locked; drawing_id := id; locked_by := Some by_user |}.

Definition unlocked_event (id : string) : DrawingEventData :=
  {| type := unlocked; drawing_id := id; locked_by := None |}.

(** Sample runs, after the scenarios of the specification. *)
Definition world_42 : World :=
  run [OpSubscribeDrawing "drawing-42" 1] initial.

Definition world_7 : World :=
  run [OpSubscribeDrawing "drawing-7" 1; OpSubscribeDrawing "drawing-7" 2] initial.

Definition world_connected : World :=
  run [OpConnect; OpTransport 0 true] initial.

Definition ops_42_locked : list Op :=
  [OpSubscribeDrawing "drawing-42" 1; OpDeliver 0 (InDrawingLocked "drawing-42" "alice")].

Definition ops_7_disconnect : list Op :=
  [OpSubscribeDrawing "drawing-7" 1; OpSubscribeDrawing "drawing-7" 2; OpDisconnect].

(** The handler an effect calls, when it is a call. *)
Definition callee (e : Effect) : option DrawingEventHandler :=
  match e with
  | Call handler _ => Some handler
  | _ => None
  end.

(** [subscribeDrawing] called for one drawing id with the handlers of [hs],
    first to last. *)
Definition subscribeAll (drawingId : string) (hs : list DrawingEventHandler)
    (w : World) : World :=
  foldl (λ w h, after (subscribeDrawing drawingId h) w) w hs.

(** The effect is console output. *)
Definition is_console (e : Effect) : bool :=
  match e with
  | ConsoleLog _ | ConsoleError _ _ => true
  | _ => false
  end.

(** One subscription in the initial world: socket 0 is the handle, and the
    transport has not reported it as connected. *)
Definition world_pending : World :=
  run [OpSubscribeDrawing "drawing-7" 1] initial.

Definition ops_after_disconnect : list Op :=
  [OpDeliver 0 (InDrawingLocked "drawing-7" "alice"); OpConnect;
   OpDeliver 1 (InDrawingUnlocked "drawing-7")].

(** The sockets [io] has returned are the indices of the heap; the handle
    is one of them and [disconnect] has not closed it; [disconnect] closes
    sockets of the heap only, and none twice. *)
Definition handle_inv (w : World) : Prop :=
  (∀ k, Io k ∈ trace w ↔ k < length (heap w))
  ∧ (∀ k, socket (this w) = Some k →
          k < length (heap w) ∧ SocketDisconnect k ∉ trace w)
  ∧ (∀ k, SocketDisconnect k ∈ trace w → k < length (heap w))
  ∧ (∀ k, (count_occ Effect_eq_dec (trace w) (SocketDisconnect k) ≤ 1)%nat).

(** ** Equations of the primitives and of the methods *)

Lemma add_trace_nil w : add_trace [] w = w.
Proof. destruct w as [c h t]. unfold add_trace; simpl. by rewrite app_nil_r. Qed.

Lemma add_trace_add_trace es1 es2 w :
  add_trace es2 (add_trace es1 w) = add_trace (es1 ++ es2) w.
Proof. unfold add_trace; simpl. by rewrite app_assoc. Qed.

Lemma log_eq e w : log e w = (Returned tt, add_trace [e] w).
Proof. reflexivity. Qed.

Lemma forEach_call (data : DrawingEventData) hs w :
  forEach hs (λ handler, call handler data) w
  = (Returned tt, add_trace (map (λ handler, Call handler data) hs) w).
Proof.
  revert w. induction hs as [|h hs IH]; intros w.
  - simpl. by rewrite add_trace_nil.
  - change (forEach (h :: hs) (λ handler, call handler data) w)
      with (forEach hs (λ handler, call handler data) (add_trace [Call h data] w)).
    rewrite IH, add_trace_add_trace. reflexivity.
Qed.

Lemma on_drawing_locked_eq id by_user w :
  on_drawing_locked id by_user w
  = (Returned tt,
     add_trace
       (map (λ handler,
               Call handler {| type := locked; drawing_id := id; locked_by := Some by_user |})
            (registered id w)) w).
Proof.
  unfold on_drawing_locked, registered, mbind, M_bind, subscriptions_get.
  destruct (subscriptions (this w) !! id) as [hs|]; simpl.
  - apply forEach_call.
  - by rewrite add_trace_nil.
Qed.

Lemma on_drawing_unlocked_eq id w :
  on_drawing_unlocked id w
  = (Returned tt,
     add_trace
       (map (λ handler,
               Call handler {| type := unlocked; drawing_id := id; locked_by := None |})
            (registered id w)) w).
Proof.
  unfold on_drawing_unlocked, registered, mbind, M_bind, subscriptions_get.
  destruct (subscriptions (this w) !! id) as [hs|]; simpl.
  - apply forEach_call.
  - by rewrite add_trace_nil.
Qed.

Lemma after_eq {A : Type} (m : M A) w o w' : m w = (o, w') → after m w = w'.
Proof. unfold after. by intros ->. Qed.

(** Replace [after m w] by the world that the equation [Heq] of [m] gives. *)
Tactic Notation "rewrite_after" uconstr(Heq) := rewrite (after_eq _ _ _ _ Heq).

Lemma emitted_add_trace {A : Type} (m : M A) w es :
  after m w = add_trace es w → emitted m w = es.
Proof.
  unfold emitted. intros ->. simpl. by rewrite drop_app_length.
Qed.

Lemma connect_connected w :
  isConnected w = (Returned true, w) → connect w = (Returned tt, w).
Proof.
  unfold connect, mbind, M_bind. intros H.
  change (this_socket_connected w) with (isConnected w). by rewrite H.
Qed.

Lemma isConnected_pure w : ∃ b, isConnected w = (Returned b, w).
Proof.
  unfold isConnected, mbind, M_bind, get_socket, socket_connected.
  destruct (socket (this w)); eauto.
Qed.

Lemma connect_not_connected w :
  isConnected w = (Returned false, w) → connect w = (Returned tt, opened w).
Proof.
  unfold connect, mbind, M_bind. intros H.
  change (this_socket_connected w) with (isConnected w). rewrite H.
  unfold io, set_socket, socket_on, opened; simpl.
  do 2 f_equal.
  rewrite <- (Nat.add_0_r (length (heap w))).
  by rewrite !alter_app_r.
Qed.

Lemma disconnect_none w :
  socket (this w) = None → disconnect w = (Returned tt, w).
Proof.
  unfold disconnect, mbind, M_bind, get_socket. by intros ->.
Qed.

Lemma disconnect_some w k :
  socket (this w) = Some k →
  disconnect w
  = (Returned tt,
     {| this := websocketClient;
        heap := alter (λ o, {| connected := false; listeners := listeners o |}) k (heap w);
        trace := trace w ++ [SocketDisconnect k] |}).
Proof.
  unfold disconnect, mbind, M_bind, get_socket. by intros ->.
Qed.

Lemma ensured_socket w : ∃ k, socket (this (ensured w)) = Some k.
Proof.
  unfold ensured, isConnected, mbind, M_bind, get_socket, socket_connected.
  destruct (socket (this w)) as [k|] eqn:Hs; simpl.
  - destruct (default false (connected <$> heap w !! k)); simpl; eauto.
  - eauto.
Qed.

Lemma ensured_subscriptions w :
  subscriptions (this (ensured w)) = subscriptions (this w).
Proof.
  unfold ensured. destruct (isConnected w) as [[[]|] ?]; reflexivity.
Qed.

Lemma subscribeDrawing_eq drawingId handler w k :
  socket (this (ensured w)) = Some k →
  subscribeDrawing drawingId handler w
  = (Returned tt,
     {| this := {| socket := Some k;
                   subscriptions :=
                     <[drawingId := registered drawingId w ++ [handler]]>
                       (subscriptions (this w)) |};
        heap := heap (ensured w);
        trace := trace (ensured w) ++ [Emit k "subscribe_drawing" drawingId] |}).
Proof.
  intros Hk.
  unfold subscribeDrawing.
  unfold mbind at 1. unfold M_bind at 1.
  change (this_socket_connected w) with (isConnected w).
  destruct (isConnected_pure w) as [b Hb]. rewrite Hb.
  assert (Hstep : (if b then mret tt else connect) w = (Returned tt, ensured w)).
  { unfold ensured. rewrite Hb. destruct b; [reflexivity|].
    by apply connect_not_connected. }
  unfold mbind at 1. unfold M_bind at 1. rewrite Hstep.
  pose proof (ensured_subscriptions w) as Hsub.
  destruct (ensured w) as [[s subs] h t]; simpl in *. subst s subs.
  unfold registered, mbind, M_bind, subscriptions_has, subscriptions_get,
    subscriptions_set, set_subscriptions, get_socket, socket_emit, log, add_trace; simpl.
  destruct (subscriptions (this w) !! drawingId) as [hs|] eqn:Hl; simpl.
  - rewrite Hl. reflexivity.
  - rewrite lookup_insert_eq. simpl. by rewrite insert_insert_eq.
Qed.

Lemma unsubscribeDrawing_eq drawingId w :
  unsubscribeDrawing drawingId w
  = (Returned tt,
     {| this := {| socket := socket (this w);
                   subscriptions := delete drawingId (subscriptions (this w)) |};
        heap := heap w;
        trace := trace w ++ match socket (this w) with
                            | Some k => [Emit k "unsubscribe_drawing" drawingId]
                            | None => []
                            end |}).
Proof.
  unfold unsubscribeDrawing, mbind, M_bind, subscriptions_delete, set_subscriptions,
    get_socket, socket_emit, log, add_trace; simpl.
  destruct (socket (this w)); simpl; [reflexivity|].
  by rewrite app_nil_r.
Qed.

Lemma connect_eq w : connect w = (Returned tt, ensured w).
Proof.
  unfold ensured. destruct (isConnected_pure w) as [[] Hb]; rewrite Hb.
  - by apply connect_connected.
  - by apply connect_not_connected.
Qed.

Lemma listener_eq msg w :
  listener msg w = (Returned tt, add_trace (listener_effects msg w) w).
Proof.
  destruct msg; simpl;
    auto using on_drawing_locked_eq, on_drawing_unlocked_eq, log_eq.
Qed.

Lemma listener_effects_add_trace msg es w :
  listener_effects msg (add_trace es w) = listener_effects msg w.
Proof. by destruct msg. Qed.

Lemma forEach_listener {A : Type} (l : list A) msg w :
  forEach l (λ _, listener msg) w
  = (Returned tt,
     add_trace (mjoin (replicate (length l) (listener_effects msg w))) w).
Proof.
  revert w. induction l as [|x l IH]; intros w.
  - simpl. by rewrite add_trace_nil.
  - simpl. unfold mbind, M_bind. rewrite listener_eq.
    rewrite IH, add_trace_add_trace, listener_effects_add_trace. reflexivity.
Qed.

Lemma deliver_eq k msg w :
  deliver k msg w
  = (Returned tt,
     add_trace (mjoin (replicate (fires k msg w) (listener_effects msg w))) w).
Proof.
  unfold deliver, fires. destruct (heap w !! k) as [o|].
  - apply forEach_listener.
  - simpl. by rewrite add_trace_nil.
Qed.



Lemma run_snoc ops op w : run (ops ++ [op]) w = after (step op) (run ops w).
Proof. unfold run. by rewrite foldl_app. Qed.

(** Induction over the runs from the initial world. *)
Lemma reachable_ind (P : World → Prop) :
  P initial →
  (∀ w op, reachable w → P w → P (after (step op) w)) →
  ∀ w, reachable w → P w.
Proof.
  intros Hinit Hstep w [ops ->].
  induction ops as [|op ops IH] using rev_ind; [exact Hinit|].
  rewrite run_snoc. apply Hstep; [by exists ops | exact IH].
Qed.

(** ** One step of a run: the client's fields and the trace *)

Lemma ensured_trace w :
  trace (ensured w) = trace w ∨ trace (ensured w) = trace w ++ [Io (length (heap w))].
Proof.
  unfold ensured. destruct (isConnected w) as [[[]|] ?]; simpl; auto.
Qed.

Lemma step_this op w :
  this (after (step op) w)
  = match op with
    | OpConnect => this (ensured w)
    | OpDisconnect =>
        match socket (this w) with
        | Some _ => websocketClient
        | None => this w
        end
    | OpSubscribeDrawing d h =>
        {| socket := socket (this (ensured w));
           subscriptions := <[d := registered d w ++ [h]]> (subscriptions (this w)) |}
    | OpUnsubscribeDrawing d =>
        {| socket := socket (this w);
           subscriptions := delete d (subscriptions (this w)) |}
    | OpIsConnected | OpTransport _ _ | OpDeliver _ _ => this w
    end.
Proof.
  destruct op as [| |d h|d| |k up|k msg]; simpl.
  - by rewrite_after (connect_eq w).
  - destruct (socket (this w)) as [k|] eqn:Hs.
    + by rewrite_after (disconnect_some _ _ Hs).
    + by rewrite_after (disconnect_none _ Hs).
  - destruct (ensured_socket w) as [k Hk].
    rewrite_after (subscribeDrawing_eq _ _ _ _ Hk). simpl. by rewrite Hk.
  - by rewrite_after (unsubscribeDrawing_eq _ _).
  - unfold after, mbind, M_bind. by destruct (isConnected_pure w) as [b ->].
  - reflexivity.
  - by rewrite_after (deliver_eq _ _ _).
Qed.

Lemma step_calls op w handler data :
  Call handler data ∈ trace (after (step op) w) →
  Call handler data ∈ trace w
  ∨ ∃ k msg, op = OpDeliver k msg
             ∧ Call handler data ∈ emitted (deliver k msg) w
             ∧ Call handler data ∈ listener_effects msg w.
Proof.
  destruct op as [| |d h|d| |k up|k msg]; simpl.
  - rewrite_after (connect_eq w).
    destruct (ensured_trace w) as [-> | ->]; [by left|].
    rewrite elem_of_app, list_elem_of_singleton. intros [?|?]; [by left|done].
  - destruct (socket (this w)) as [k|] eqn:Hs.
    + rewrite_after (disconnect_some _ _ Hs). simpl.
      rewrite elem_of_app, list_elem_of_singleton. intros [?|?]; [by left|done].
    + rewrite_after (disconnect_none _ Hs). by left.
  - destruct (ensured_socket w) as [k Hk].
    rewrite_after (subscribeDrawing_eq _ _ _ _ Hk). simpl.
    rewrite elem_of_app, list_elem_of_singleton. intros [Hin|?]; [|done].
    destruct (ensured_trace w) as [Ht | Ht]; rewrite Ht in Hin; [by left|].
    apply elem_of_app in Hin as [?|Hin]; [by left|].
    by apply list_elem_of_singleton in Hin.
  - rewrite_after (unsubscribeDrawing_eq _ _). simpl.
    rewrite elem_of_app. intros [?|Hin]; [by left|].
    destruct (socket (this w)).
    + by apply list_elem_of_singleton in Hin.
    + by apply elem_of_nil in Hin.
  - unfold after, mbind, M_bind. destruct (isConnected_pure w) as [b ->]. by left.
  - by left.
  - rewrite_after (deliver_eq _ _ _). simpl.
    rewrite elem_of_app. intros [?|Hin]; [by left|]. right. exists k, msg. split; [done|].
    rewrite (emitted_add_trace _ _ _ (after_eq _ _ _ _ (deliver_eq _ _ _))).
    split; [exact Hin|].
    apply list_elem_of_join in Hin as (es & Hin & Hes).
    apply elem_of_replicate in Hes as [-> _]. exact Hin.
Qed.

(** A call made by a listener goes to a handler in the registry list of the
    message's drawing id, with that id in the event. *)
Lemma listener_effects_call msg w handler data :
  Call handler data ∈ listener_effects msg w →
  handler ∈ registered (drawing_id data) w
  ∧ ((∃ by_user, msg = InDrawingLocked (drawing_id data) by_user
                 ∧ data = {| type := locked; drawing_id := drawing_id data;
                             locked_by := Some by_user |})
     ∨ (msg = InDrawingUnlocked (drawing_id data)
        ∧ data = {| type := unlocked; drawing_id := drawing_id data;
                    locked_by := None |})).
Proof.
  destruct msg as [| |id u|id|e]; simpl.
  - rewrite list_elem_of_singleton. done.
  - rewrite list_elem_of_singleton. done.
  - rewrite list_elem_of_fmap. intros (h & [= -> ->] & Hin). simpl. eauto.
  - rewrite list_elem_of_fmap. intros (h & [= -> ->] & Hin). simpl. eauto.
  - rewrite list_elem_of_singleton. done.
Qed.

(** ** Invariants of the reachable worlds *)

(** A handler in the registry got there by a [subscribeDrawing] call for
    that drawing id. *)
Lemma registered_was_subscribed ops d handler :
  handler ∈ registered d (run ops initial) →
  OpSubscribeDrawing d handler ∈ ops.
Proof.
  induction ops as [|op ops IH] using rev_ind.
  - unfold registered; simpl. rewrite lookup_empty. simpl. by intros ?%elem_of_nil.
  - rewrite run_snoc. set (w := run ops initial) in *.
    unfold registered. rewrite step_this. fold (registered d w) in IH.
    rewrite elem_of_app, list_elem_of_singleton.
    destruct op as [| |d' h'|d'| |k up|k msg].
    + rewrite ensured_subscriptions. auto.
    + destruct (socket (this w)); [|by auto].
      simpl. rewrite lookup_empty. simpl. by intros ?%elem_of_nil.
    + simpl. rewrite lookup_insert. case_decide as Hd; simpl; [|by auto].
      subst d'. rewrite elem_of_app, list_elem_of_singleton.
      intros [?| ->]; auto.
    + simpl. rewrite lookup_delete. case_decide; simpl; [|by auto].
      by intros ?%elem_of_nil.
    + auto.
    + auto.
    + auto.
Qed.

(** Without a connection handle there is no registry entry. *)
Lemma no_socket_no_subscriptions w :
  reachable w → socket (this w) = None → subscriptions (this w) = ∅.
Proof.
  intros Hw. induction Hw as [|w op _ IH] using reachable_ind; [done|].
  rewrite step_this.
  destruct op as [| |d' h'|d'| |k up|k msg]; try exact IH.
  - destruct (ensured_socket w) as [k Hk]. rewrite Hk. done.
  - destruct (socket (this w)) eqn:Hs; [done|]. intros _. by apply IH.
  - simpl. destruct (ensured_socket w) as [k Hk]. rewrite Hk. done.
  - simpl. intros Hs. rewrite (IH Hs). apply delete_empty.
Qed.

(** The handle of the client refers to a socket that [io] returned, and
    a registry list, once created, holds at least one handler. *)
Lemma reachable_wf w :
  reachable w →
  (∀ k, socket (this w) = Some k → k < length (heap w))
  ∧ (∀ d hs, subscriptions (this w) !! d = Some hs → hs ≠ []).
Proof.
  intros Hw. induction Hw as [|w op _ [IHs IHr]] using reachable_ind.
  - split; [done|]. intros d hs. simpl. by rewrite lookup_empty.
  - assert (Hens : ∀ k, socket (this (ensured w)) = Some k → k < length (heap (ensured w))).
    { intros k. unfold ensured.
      destruct (isConnected w) as [[[]|] ?]; simpl; auto;
        intros [= <-]; rewrite length_app; simpl; lia. }
    destruct op as [| |d' h'|d'| |k up|k msg].
    + simpl. rewrite_after (connect_eq w).
      split; [exact Hens|]. rewrite ensured_subscriptions. exact IHr.
    + simpl. destruct (socket (this w)) as [k|] eqn:Hs.
      * rewrite_after (disconnect_some _ _ Hs). simpl.
        split; [done|]. intros d hs. by rewrite lookup_empty.
      * rewrite_after (disconnect_none _ Hs). split; [|exact IHr].
        intros k. by rewrite Hs.
    + simpl. destruct (ensured_socket w) as [k Hk].
      rewrite_after (subscribeDrawing_eq _ _ _ _ Hk). simpl. split.
      * intros k' [= <-]. by apply Hens.
      * intros d hs. rewrite lookup_insert. case_decide; [|by apply IHr].
        intros [= <-]. by destruct (registered d' w).
    + simpl. rewrite_after (unsubscribeDrawing_eq _ _). simpl.
      split; [exact IHs|]. intros d hs. rewrite lookup_delete.
      case_decide; [done | by apply IHr].
    + simpl. unfold after, mbind, M_bind. destruct (isConnected_pure w) as [b ->].
      by split.
    + split; [|exact IHr]. simpl. intros k'. rewrite length_alter. apply IHs.
    + simpl. rewrite_after (deliver_eq _ _ _). simpl. by split.
Qed.

(** ** The listeners of the sockets in the heap *)

Lemma alter_listeners (f : SocketObj → SocketObj) (l : list SocketObj) i k o :
  (∀ o', listeners (f o') = listeners o') →
  alter f i l !! k = Some o →
  ∃ o', l !! k = Some o' ∧ listeners o = listeners o'.
Proof.
  intros Hf. rewrite list_lookup_alter. case_decide as Hik; [subst k|by eauto].
  destruct (l !! i) as [o'|]; simpl; [|done]. intros [= <-]. eauto.
Qed.

Lemma ensured_heap w :
  heap (ensured w) = heap w ∨ heap (ensured w) = heap w ++ [fresh_socket].
Proof.
  unfold ensured. destruct (isConnected w) as [[[]|] ?]; simpl; auto.
Qed.

(** Every socket in the heap carries the five listeners of [connect], each
    once: [connect] installs them on the socket it has just opened and on no
    other. *)
Lemma reachable_listeners w :
  reachable w →
  ∀ k o, heap w !! k = Some o → listeners o = listeners fresh_socket.
Proof.
  intros Hw. induction Hw as [|w op _ IH] using reachable_ind; [done|].
  assert (Hens : ∀ k o, heap (ensured w) !! k = Some o
                        → listeners o = listeners fresh_socket).
  { intros k o. destruct (ensured_heap w) as [-> | ->]; [by apply IH|].
    rewrite lookup_app_Some. intros [Hl | [_ Hl]]; [by eapply IH|].
    apply list_lookup_singleton_Some in Hl as [_ <-]. reflexivity. }
  intros k o. destruct op as [| |d' h'|d'| |k' up|k' msg]; simpl.
  - rewrite_after (connect_eq w). apply Hens.
  - destruct (socket (this w)) as [k'|] eqn:Hs.
    + rewrite_after (disconnect_some _ _ Hs). simpl.
      intros (o' & Hl & ->)%alter_listeners; [by eapply IH | done].
    + rewrite_after (disconnect_none _ Hs). apply IH.
  - destruct (ensured_socket w) as [k' Hk].
    rewrite_after (subscribeDrawing_eq _ _ _ _ Hk). simpl. apply Hens.
  - rewrite_after (unsubscribeDrawing_eq _ _). simpl. apply IH.
  - unfold after, mbind, M_bind. destruct (isConnected_pure w) as [b ->]. apply IH.
  - unfold after. simpl.
    intros (o' & Hl & ->)%alter_listeners; [by eapply IH | done].
  - rewrite_after (deliver_eq _ _ _). simpl. apply IH.
Qed.

(** So a message that a socket delivers runs its listener once. *)
Lemma deliver_reachable k msg w :
  reachable w → k < length (heap w) → deliver k msg w = listener msg w.
Proof.
  intros Hw Hk. unfold deliver.
  destruct (lookup_lt_is_Some_2 _ _ Hk) as [o Ho]. rewrite Ho.
  rewrite (reachable_listeners w Hw k o Ho).
  assert (Hf : filter (λ ev, ev = event_name msg) (listeners fresh_socket)
               = [event_name msg]) by (by destruct msg).
  rewrite Hf. simpl. unfold mbind, M_bind. by rewrite listener_eq.
Qed.

(** ** Dispatch of the server events *)

Lemma times_called_map data hs handler :
  times_called handler data (map (λ h, Call h data) hs) = times_registered handler hs.
Proof.
  unfold times_called, times_registered.
  induction hs as [|h hs IH]; [reflexivity|].
  change (map (λ h, Call h data) (h :: hs))
    with (Call h data :: map (λ h, Call h data) hs).
  destruct (decide (h = handler)) as [->|Hne].
  - rewrite !count_occ_cons_eq by reflexivity. by rewrite IH.
  - rewrite !count_occ_cons_neq by congruence. exact IH.
Qed.

Lemma registered_lookup id w hs :
  subscriptions (this w) !! id = Some hs → registered id w = hs.
Proof. unfold registered. by intros ->. Qed.

Lemma registered_lookup_None id w :
  subscriptions (this w) !! id = None → registered id w = [].
Proof. unfold registered. by intros ->. Qed.

(** C1. When the registry holds the list [hs] of at least one handler for the
    drawing id [D], the [drawing_locked] listener run on [{drawing_id: D,
    locked_by: U}] returns without an error, changes nothing but the trace,
    and adds to the trace exactly one call per entry of [hs], in the order
    of the list (the order of the pushes), each with the event
    [{type: "locked", drawing_id: D, locked_by: U}]; so a handler is called
    as often as it stands in the list.  In a reachable world a socket that
    delivers the message runs this listener once. *)
Theorem drawing_locked_calls_registered_in_order
    (w : World) (D U : string) (hs : list DrawingEventHandler) :
  subscriptions (this w) !! D = Some hs →
  hs ≠ [] →
  on_drawing_locked D U w
    = (Returned tt, add_trace (map (λ h, Call h (locked_event D U)) hs) w)
  ∧ emitted (on_drawing_locked D U) w = map (λ h, Call h (locked_event D U)) hs
  ∧ (∀ i h, hs !! i = Some h ↔
            emitted (on_drawing_locked D U) w !! i = Some (Call h (locked_event D U)))
  ∧ (∀ h, times_called h (locked_event D U) (emitted (on_drawing_locked D U) w)
          = times_registered h hs)
  ∧ (reachable w →
     ∀ k, k < length (heap w) →
          deliver k (InDrawingLocked D U) w = on_drawing_locked D U w).
Proof.
  intros Hl _.
  pose proof (on_drawing_locked_eq D U w) as Heq.
  rewrite (registered_lookup _ _ _ Hl) in Heq.
  assert (Hem : emitted (on_drawing_locked D U) w
                = map (λ h, Call h (locked_event D U)) hs).
  { apply emitted_add_trace. by rewrite_after Heq. }
  split; [exact Heq|]. split; [exact Hem|]. rewrite Hem. split.
  - intros i h. rewrite list_lookup_fmap. split.
    + by intros ->.
    + destruct (hs !! i) as [h'|]; simpl; [|done]. by intros [= ->].
  - split; [intros h; apply times_called_map|].
    intros Hw k Hk. by apply deliver_reachable.
Qed.

(** The scenario of the specification: "drawing-42" is subscribed with one
    handler, the server pushes [drawing_locked] by "alice". *)
Lemma drawing_locked_calls_registered_in_order_witness :
  emitted (on_drawing_locked "drawing-42" "alice") world_42
  = [Call 1 (locked_event "drawing-42" "alice")].
Proof.
  refine (proj1 (proj2
    (drawing_locked_calls_registered_in_order world_42 "drawing-42" "alice" [1] _ _))).
  - vm_compute. reflexivity.
  - discriminate.
Defined.

(** C4. When the registry has no list for the drawing id [D], the
    [drawing_locked] and the [drawing_unlocked] listener return without an
    error and leave the world as it was: no handler is called, nothing is
    kept for later, no field changes.  The same holds when any socket
    delivers such a message to its listeners. *)
Theorem dispatch_without_entry_is_dropped (w : World) (D U : string) :
  subscriptions (this w) !! D = None →
  on_drawing_locked D U w = (Returned tt, w)
  ∧ on_drawing_unlocked D w = (Returned tt, w)
  ∧ emitted (on_drawing_locked D U) w = []
  ∧ emitted (on_drawing_unlocked D) w = []
  ∧ (∀ k, deliver k (InDrawingLocked D U) w = (Returned tt, w))
  ∧ (∀ k, deliver k (InDrawingUnlocked D) w = (Returned tt, w)).
Proof.
  intros Hl.
  pose proof (on_drawing_locked_eq D U w) as Hlk.
  pose proof (on_drawing_unlocked_eq D w) as Hun.
  rewrite (registered_lookup_None _ _ Hl) in Hlk, Hun. simpl in Hlk, Hun.
  rewrite add_trace_nil in Hlk, Hun.
  assert (Hjoin : ∀ n, mjoin (replicate n (@nil Effect)) = []).
  { induction n as [|n IH]; [reflexivity|]. simpl. exact IH. }
  repeat split; try assumption.
  - apply emitted_add_trace. rewrite_after Hlk. by rewrite add_trace_nil.
  - apply emitted_add_trace. rewrite_after Hun. by rewrite add_trace_nil.
  - intros k. rewrite deliver_eq. simpl. rewrite (registered_lookup_None _ _ Hl). simpl.
    by rewrite Hjoin, add_trace_nil.
  - intros k. rewrite deliver_eq. simpl. rewrite (registered_lookup_None _ _ Hl). simpl.
    by rewrite Hjoin, add_trace_nil.
Qed.

(** "drawing-42" is subscribed; a message for "drawing-9" is dropped. *)
Lemma dispatch_without_entry_is_dropped_witness :
  on_drawing_locked "drawing-9" "alice" world_42 = (Returned tt, world_42)
  ∧ on_drawing_unlocked "drawing-9" world_42 = (Returned tt, world_42).
Proof.
  pose proof (dispatch_without_entry_is_dropped world_42 "drawing-9" "alice") as H.
  assert (Hl : subscriptions (this world_42) !! "drawing-9" = None)
    by (vm_compute; reflexivity).
  destruct (H Hl) as (H1 & H2 & _). split; [exact H1 | exact H2].
Defined.

Lemma subscribeDrawing_this D H w :
  this (after (subscribeDrawing D H) w)
  = {| socket := socket (this (ensured w));
       subscriptions := <[D := registered D w ++ [H]]> (subscriptions (this w)) |}.
Proof. exact (step_this (OpSubscribeDrawing D H) w). Qed.

Lemma subscribeDrawing_registered D H w :
  registered D (after (subscribeDrawing D H) w) = registered D w ++ [H].
Proof.
  unfold registered at 1. rewrite subscribeDrawing_this. simpl.
  by rewrite lookup_insert_eq.
Qed.

Lemma unsubscribeDrawing_this D w :
  this (after (unsubscribeDrawing D) w)
  = {| socket := socket (this w);
       subscriptions := delete D (subscriptions (this w)) |}.
Proof. exact (step_this (OpUnsubscribeDrawing D) w). Qed.

Lemma emitted_locked D U w :
  emitted (on_drawing_locked D U) w
  = map (λ h, Call h (locked_event D U)) (registered D w).
Proof.
  apply emitted_add_trace. by rewrite_after (on_drawing_locked_eq D U w).
Qed.

Lemma emitted_unlocked D w :
  emitted (on_drawing_unlocked D) w
  = map (λ h, Call h (unlocked_event D)) (registered D w).
Proof.
  apply emitted_add_trace. by rewrite_after (on_drawing_unlocked_eq D w).
Qed.

(** C2. In a world where the handlers [H1] and [H2] stand in the registry
    list of [D] (so that a lock or unlock message for [D] calls both),
    [unsubscribeDrawing D] returns, removes the whole list of [D] from the
    registry, with it both handlers, and a lock or unlock message for [D]
    dispatched next calls no handler at all, hence neither [H1] nor [H2]. *)
Theorem unsubscribeDrawing_removes_every_handler
    (w : World) (D U : string) (H1 H2 : DrawingEventHandler) :
  H1 ∈ registered D w →
  H2 ∈ registered D w →
  let w' := after (unsubscribeDrawing D) w in
  (Call H1 (locked_event D U) ∈ emitted (on_drawing_locked D U) w
   ∧ Call H2 (locked_event D U) ∈ emitted (on_drawing_locked D U) w)
  ∧ unsubscribeDrawing D w = (Returned tt, w')
  ∧ subscriptions (this w') !! D = None
  ∧ (H1 ∉ registered D w') ∧ (H2 ∉ registered D w')
  ∧ on_drawing_locked D U w' = (Returned tt, w')
  ∧ on_drawing_unlocked D w' = (Returned tt, w')
  ∧ emitted (on_drawing_locked D U) w' = []
  ∧ emitted (on_drawing_unlocked D) w' = [].
Proof.
  intros Hin1 Hin2 w'.
  assert (Hl : subscriptions (this w') !! D = None).
  { unfold w'. rewrite unsubscribeDrawing_this. simpl. apply lookup_delete_eq. }
  assert (Hr : registered D w' = []) by (by apply registered_lookup_None).
  pose proof (on_drawing_locked_eq D U w') as Hlk.
  pose proof (on_drawing_unlocked_eq D w') as Hun.
  rewrite Hr in Hlk, Hun. simpl in Hlk, Hun. rewrite add_trace_nil in Hlk, Hun.
  split; [|split; [|split; [exact Hl|]]].
  - rewrite emitted_locked. split; apply list_elem_of_fmap; eauto.
  - unfold w', after. rewrite unsubscribeDrawing_eq. reflexivity.
  - rewrite Hr, emitted_locked, emitted_unlocked, Hr. simpl.
    repeat split; try assumption; by intros ?%elem_of_nil.
Qed.

(** The scenario of the specification: "drawing-7" is subscribed with two
    handlers and then unsubscribed; an unlock message calls neither. *)
Lemma unsubscribeDrawing_removes_every_handler_witness :
  subscriptions (this (after (unsubscribeDrawing "drawing-7") world_7)) !! "drawing-7" = None
  ∧ emitted (on_drawing_unlocked "drawing-7")
            (after (unsubscribeDrawing "drawing-7") world_7) = [].
Proof.
  assert (Hin1 : 1 ∈ registered "drawing-7" world_7)
    by (vm_compute; apply list_elem_of_here).
  assert (Hin2 : 2 ∈ registered "drawing-7" world_7)
    by (vm_compute; apply list_elem_of_further, list_elem_of_here).
  pose proof (unsubscribeDrawing_removes_every_handler
                world_7 "drawing-7" "alice" 1 2 Hin1 Hin2) as H.
  cbv zeta in H. destruct H as (_ & _ & Hl & _ & _ & _ & _ & _ & Hun).
  split; [exact Hl | exact Hun].
Defined.

(** C9. [subscribeDrawing] does not look for the handler in the list it
    pushes to: after two calls [subscribeDrawing D H] the list of [D] is
    the former list followed by [H; H], so [H] stands in it twice more than
    before (twice, when it was not there), and one lock or unlock message
    for [D] calls [H] that many times. *)
Theorem subscribeDrawing_twice_registers_twice
    (w : World) (D U : string) (H : DrawingEventHandler) :
  let w2 := after (subscribeDrawing D H) (after (subscribeDrawing D H) w) in
  subscriptions (this w2) !! D = Some (registered D w ++ [H; H])
  ∧ times_registered H (registered D w2) = times_registered H (registered D w) + 2
  ∧ emitted (on_drawing_locked D U) w2
    = map (λ h, Call h (locked_event D U)) (registered D w ++ [H; H])
  ∧ emitted (on_drawing_unlocked D) w2
    = map (λ h, Call h (unlocked_event D)) (registered D w ++ [H; H])
  ∧ times_called H (locked_event D U) (emitted (on_drawing_locked D U) w2)
    = times_registered H (registered D w) + 2
  ∧ times_called H (unlocked_event D) (emitted (on_drawing_unlocked D) w2)
    = times_registered H (registered D w) + 2
  ∧ (H ∉ registered D w →
     times_registered H (registered D w2) = 2
     ∧ times_called H (locked_event D U) (emitted (on_drawing_locked D U) w2) = 2
     ∧ times_called H (unlocked_event D) (emitted (on_drawing_unlocked D) w2) = 2).
Proof.
  intros w2.
  assert (Hr : registered D w2 = registered D w ++ [H; H]).
  { unfold w2. rewrite !subscribeDrawing_registered, <- app_assoc. reflexivity. }
  assert (Hc : times_registered H (registered D w2)
               = times_registered H (registered D w) + 2).
  { rewrite Hr. unfold times_registered. rewrite count_occ_app.
    rewrite !count_occ_cons_eq by reflexivity. reflexivity. }
  assert (Hl : subscriptions (this w2) !! D = Some (registered D w ++ [H; H])).
  { rewrite <- Hr. unfold w2, registered. rewrite subscribeDrawing_this. simpl.
    by rewrite lookup_insert_eq. }
  rewrite emitted_locked, emitted_unlocked, !times_called_map, Hc, Hr.
  do 6 (split; [reflexivity || assumption|]).
  intros Hnot.
  assert (H0 : times_registered H (registered D w) = 0).
  { unfold times_registered. apply count_occ_not_In. by rewrite <- list_elem_of_In. }
  rewrite H0. by repeat split.
Qed.

(** H was not registered for "drawing-42"; after two subscriptions one lock
    message calls it twice. *)
Lemma subscribeDrawing_twice_registers_twice_witness :
  times_called 1 (locked_event "drawing-42" "alice")
    (emitted (on_drawing_locked "drawing-42" "alice")
       (after (subscribeDrawing "drawing-42" 1)
          (after (subscribeDrawing "drawing-42" 1) initial))) = 2.
Proof.
  pose proof (subscribeDrawing_twice_registers_twice initial "drawing-42" "alice" 1) as H.
  cbv zeta in H. destruct H as (_ & _ & _ & _ & _ & _ & Hfresh).
  assert (Hnot : 1 ∉ registered "drawing-42" initial)
    by (vm_compute; apply not_elem_of_nil).
  exact (proj1 (proj2 (Hfresh Hnot))).
Defined.

(** ** Handlers and drawing ids over whole runs *)

(** C3. In every run from the initial world (method calls, transport changes
    and deliveries of inbound messages in any order), every call of a handler
    in the trace was made by the dispatch of a [drawing_locked] or
    [drawing_unlocked] message whose [drawing_id] is the one in the event the
    handler received; at that moment the handler stood in the registry list
    of this id, and a [subscribeDrawing] call for this id and this handler
    came before.  So a handler is called only for a drawing id it was
    registered against. *)
Theorem handler_called_only_for_its_drawing
    (ops : list Op) (handler : DrawingEventHandler) (data : DrawingEventData) :
  Call handler data ∈ trace (run ops initial) →
  ∃ ops1 k msg ops2,
    ops = ops1 ++ OpDeliver k msg :: ops2
    ∧ ((∃ by_user, msg = InDrawingLocked (drawing_id data) by_user
                   ∧ data = locked_event (drawing_id data) by_user)
       ∨ (msg = InDrawingUnlocked (drawing_id data)
          ∧ data = unlocked_event (drawing_id data)))
    ∧ Call handler data ∈ emitted (deliver k msg) (run ops1 initial)
    ∧ handler ∈ registered (drawing_id data) (run ops1 initial)
    ∧ OpSubscribeDrawing (drawing_id data) handler ∈ ops1.
Proof.
  induction ops as [|op ops IH] using rev_ind.
  - simpl. by intros ?%elem_of_nil.
  - rewrite run_snoc. intros Hin.
    destruct (step_calls _ _ _ _ Hin) as [Hold | (k & msg & -> & Hem & Hnew)].
    + destruct (IH Hold) as (ops1 & k & msg & ops2 & -> & Hrest).
      exists ops1, k, msg, (ops2 ++ [op]). split; [|exact Hrest].
      by rewrite <- app_assoc.
    + destruct (listener_effects_call _ _ _ _ Hnew) as [Hreg Hshape].
      exists ops, k, msg, []. split; [reflexivity|]. split; [exact Hshape|].
      split; [exact Hem|]. split; [exact Hreg|].
      by apply registered_was_subscribed.
Qed.

(** "drawing-42" is subscribed with handler 1 and socket 0 delivers the
    lock by "alice": the call of handler 1 is in the trace. *)
Lemma handler_called_only_for_its_drawing_witness :
  ∃ ops1 k msg ops2,
    ops_42_locked = ops1 ++ OpDeliver k msg :: ops2
    ∧ 1 ∈ registered "drawing-42" (run ops1 initial)
    ∧ OpSubscribeDrawing "drawing-42" 1 ∈ ops1.
Proof.
  assert (Hin : Call 1 (locked_event "drawing-42" "alice")
                ∈ trace (run ops_42_locked initial))
    by (vm_compute; repeat constructor).
  destruct (handler_called_only_for_its_drawing ops_42_locked 1 _ Hin)
    as (ops1 & k & msg & ops2 & Heq & _ & _ & Hreg & Hsub).
  exists ops1, k, msg, ops2. split; [exact Heq|]. split; [exact Hreg | exact Hsub].
Defined.

(** C10. In every world reached from the initial one by [connect],
    [disconnect], [subscribeDrawing] and [unsubscribeDrawing] calls (and by
    transport changes and deliveries in between), a client without a
    connection handle has an empty registry; put the other way round, a
    registry with an entry comes with a handle.  So the [disconnect] that
    finds no handle and skips [subscriptions.clear()] leaves an empty
    registry all the same. *)
Theorem no_handle_means_empty_registry (ops : list Op) :
  let w := run ops initial in
  (socket (this w) = None → subscriptions (this w) = ∅)
  ∧ (subscriptions (this w) ≠ ∅ → is_Some (socket (this w)))
  ∧ (socket (this w) = None →
     disconnect w = (Returned tt, w) ∧ subscriptions (this (after disconnect w)) = ∅).
Proof.
  intros w.
  assert (Hw : reachable w) by (by exists ops).
  pose proof (no_socket_no_subscriptions w Hw) as Hinv.
  split; [exact Hinv|]. split.
  - intros Hne. destruct (socket (this w)) as [k|]; [by eexists|].
    by destruct Hne; apply Hinv.
  - intros Hs. rewrite_after (disconnect_none _ Hs).
    split; [by apply disconnect_none | by apply Hinv].
Qed.

(** After two subscriptions and a [disconnect] there is no handle and no
    registry entry. *)
Lemma no_handle_means_empty_registry_witness :
  socket (this (run ops_7_disconnect initial)) = None
  ∧ subscriptions (this (run ops_7_disconnect initial)) = ∅.
Proof.
  assert (Hs : socket (this (run ops_7_disconnect initial)) = None)
    by (vm_compute; reflexivity).
  split; [exact Hs|].
  exact (proj1 (no_handle_means_empty_registry ops_7_disconnect) Hs).
Defined.

(** ** The connection handle *)

Lemma emitted_trace {A : Type} (m : M A) w es :
  trace (after m w) = trace w ++ es → emitted m w = es.
Proof. unfold emitted. intros ->. by rewrite drop_app_length. Qed.

Lemma isConnected_no_socket w :
  socket (this w) = None → isConnected w = (Returned false, w).
Proof. unfold isConnected, mbind, M_bind, get_socket. by intros ->. Qed.

Lemma ensured_connected w : isConnected w = (Returned true, w) → ensured w = w.
Proof. unfold ensured. by intros ->. Qed.

Lemma ensured_not_connected w :
  isConnected w = (Returned false, w) → ensured w = opened w.
Proof. unfold ensured. by intros ->. Qed.

(** C5. [subscribeDrawing D H] returns without an error.  It first does what
    [connect] does: nothing when the socket is connected, and otherwise [io]
    opens a new socket, which becomes the handle.  Then the registry maps
    [D] to its former list (the empty list, when [D] had none) followed by
    [H].  The last step, run on the world that already has this registry,
    emits [subscribe_drawing] with [{drawing_id: D}] on the handle, in all
    cases.  When the client was not connected, the effects of the call are
    the [io] and then the emit, on the new socket; when it was, the emit
    alone, on the socket it had. *)
Theorem subscribeDrawing_connects_registers_notifies
    (w : World) (D : string) (H : DrawingEventHandler) :
  let w' := after (subscribeDrawing D H) w in
  ∃ k,
    subscribeDrawing D H w = (Returned tt, w')
    ∧ after connect w = ensured w
    ∧ socket (this w') = Some k
    ∧ subscriptions (this w')
      = <[D := default [] (subscriptions (this w) !! D) ++ [H]]> (subscriptions (this w))
    ∧ subscribeDrawing D H w
      = socket_emit k "subscribe_drawing" D
          {| this := this w'; heap := heap (ensured w); trace := trace (ensured w) |}
    ∧ (isConnected w = (Returned false, w) →
       k = length (heap w)
       ∧ heap w' = heap w ++ [fresh_socket]
       ∧ emitted (subscribeDrawing D H) w = [Io k; Emit k "subscribe_drawing" D])
    ∧ (isConnected w = (Returned true, w) →
       socket (this w) = Some k
       ∧ heap w' = heap w
       ∧ emitted (subscribeDrawing D H) w = [Emit k "subscribe_drawing" D]).
Proof.
  intros w'. destruct (ensured_socket w) as [k Hk]. exists k.
  pose proof (subscribeDrawing_eq D H w k Hk) as Heq.
  assert (Hw' : w' = (subscribeDrawing D H w).2) by reflexivity.
  rewrite Heq in Hw'. simpl in Hw'.
  split; [by rewrite Heq, Hw'|].
  split; [by rewrite_after (connect_eq w)|].
  split; [by rewrite Hw'|].
  split; [by rewrite Hw'|].
  split; [by rewrite Heq, Hw'|].
  split.
  - intros Hc. rewrite (ensured_not_connected _ Hc) in Hk, Hw'.
    simpl in Hk. injection Hk as <-.
    split; [reflexivity|]. split; [by rewrite Hw'|].
    apply emitted_trace. fold w'. rewrite Hw'. simpl. by rewrite <- app_assoc.
  - intros Hc. rewrite (ensured_connected _ Hc) in Hk, Hw'.
    split; [exact Hk|]. split; [by rewrite Hw'|].
    apply emitted_trace. fold w'. by rewrite Hw'.
Qed.

(** Subscribing in the initial world, where nothing is connected: socket 0
    is opened before the notification is emitted on it. *)
Lemma subscribeDrawing_connects_registers_notifies_witness :
  emitted (subscribeDrawing "drawing-42" 1) initial
  = [Io 0; Emit 0 "subscribe_drawing" "drawing-42"].
Proof.
  destruct (subscribeDrawing_connects_registers_notifies initial "drawing-42" 1)
    as (k & _ & _ & _ & _ & _ & Hoff & _).
  destruct (Hoff eq_refl) as (-> & _ & Hem). exact Hem.
Defined.

(** C8. When the client is connected, [connect] returns at once: the world
    is the same afterwards, with the same handle, the same registry and the
    same socket objects (none is created, [io] is not called), and
    [isConnected] still answers [true]. *)
Theorem connect_when_connected_is_noop (w : World) :
  isConnected w = (Returned true, w) →
  let w' := after connect w in
  connect w = (Returned tt, w)
  ∧ w' = w
  ∧ socket (this w') = socket (this w)
  ∧ subscriptions (this w') = subscriptions (this w)
  ∧ heap w' = heap w
  ∧ emitted connect w = []
  ∧ isConnected w' = (Returned true, w').
Proof.
  intros Hc w'.
  pose proof (connect_connected w Hc) as Heq.
  assert (Hw' : w' = w) by (unfold w'; by rewrite_after Heq).
  rewrite Hw'. repeat split; try assumption.
  apply emitted_trace. fold w'. rewrite Hw'. by rewrite app_nil_r.
Qed.

(** [connect], then the transport reports socket 0 as connected: a second
    [connect] changes nothing. *)
Lemma connect_when_connected_is_noop_witness :
  connect world_connected = (Returned tt, world_connected)
  ∧ length (heap (after connect world_connected)) = 1.
Proof.
  assert (Hc : isConnected world_connected = (Returned true, world_connected))
    by reflexivity.
  pose proof (connect_when_connected_is_noop world_connected Hc) as H.
  cbv zeta in H. destruct H as (H1 & _ & _ & _ & H5 & _).
  split; [exact H1|]. rewrite H5. reflexivity.
Defined.

(** C6. In every reachable world [disconnect] returns without an error;
    afterwards the client has no handle, [isConnected] answers [false] and
    the registry is empty, so a [subscribeDrawing D H] that follows leaves
    [H] alone in the registry.  When there was no handle, in particular
    after an earlier [disconnect], the call changes nothing. *)
Theorem disconnect_drops_handle_and_registry (w : World) :
  reachable w →
  let w' := after disconnect w in
  disconnect w = (Returned tt, w')
  ∧ socket (this w') = None
  ∧ isConnected w' = (Returned false, w')
  ∧ subscriptions (this w') = ∅
  ∧ (∀ D H, subscriptions (this (after (subscribeDrawing D H) w')) = {[ D := [H] ]})
  ∧ (socket (this w) = None → w' = w)
  ∧ disconnect w' = (Returned tt, w').
Proof.
  intros Hw w'.
  assert (Hret : disconnect w = (Returned tt, w') ∧ this w' = websocketClient).
  { unfold w'. destruct (socket (this w)) as [k|] eqn:Hs.
    - rewrite_after (disconnect_some _ _ Hs).
      split; [by apply disconnect_some | reflexivity].
    - rewrite_after (disconnect_none _ Hs).
      split; [by apply disconnect_none|].
      pose proof (no_socket_no_subscriptions w Hw Hs) as He.
      destruct w as [[s subs] h t]; simpl in *. by subst. }
  destruct Hret as [Hret Hthis].
  split; [exact Hret|]. split; [by rewrite Hthis|].
  split; [apply isConnected_no_socket; by rewrite Hthis|].
  split; [by rewrite Hthis|]. split; [|split].
  - intros D H. rewrite subscribeDrawing_this. simpl.
    unfold registered. rewrite Hthis. simpl. rewrite lookup_empty. simpl.
    apply insert_empty.
  - intros Hs. unfold w'. by rewrite_after (disconnect_none _ Hs).
  - apply disconnect_none. by rewrite Hthis.
Qed.

(** "drawing-7" has two handlers; after [disconnect] nothing is left, and
    a new subscription starts from an empty registry. *)
Lemma disconnect_drops_handle_and_registry_witness :
  isConnected (after disconnect world_7) = (Returned false, after disconnect world_7)
  ∧ subscriptions (this (after disconnect world_7)) = ∅
  ∧ subscriptions (this (after (subscribeDrawing "drawing-7" 3) (after disconnect world_7)))
    = {[ "drawing-7" := [3] ]}.
Proof.
  assert (Hw : reachable world_7)
    by (exists [OpSubscribeDrawing "drawing-7" 1; OpSubscribeDrawing "drawing-7" 2];
        reflexivity).
  pose proof (disconnect_drops_handle_and_registry world_7 Hw) as H.
  cbv zeta in H. destruct H as (_ & _ & H3 & H4 & H5 & _).
  split; [exact H3|]. split; [exact H4 | exact (H5 "drawing-7" 3)].
Defined.

(** ** Unsubscribing a drawing id that has no list *)

(** C7, as stated, fails: with a connection handle, [unsubscribeDrawing] for
    a drawing id that was never subscribed still emits
    [unsubscribe_drawing] to the server, so the call has an effect and the
    world is not the one before. *)
Lemma unsubscribeDrawing_without_entry_still_notifies :
  reachable world_connected
  ∧ subscriptions (this world_connected) !! "drawing-9" = None
  ∧ emitted (unsubscribeDrawing "drawing-9") world_connected
    = [Emit 0 "unsubscribe_drawing" "drawing-9"]
  ∧ after (unsubscribeDrawing "drawing-9") world_connected ≠ world_connected.
Proof.
  split; [by exists [OpConnect; OpTransport 0 true]|].
  split; [reflexivity|]. split; [reflexivity|].
  intros Heq. apply (f_equal trace) in Heq. vm_compute in Heq. discriminate Heq.
Qed.

(** C7, amended. When the registry has no list for [D], [unsubscribeDrawing D]
    returns without an error and leaves the registry, the handle and the
    socket objects as they were; with a handle [k] it still emits
    [unsubscribe_drawing] with [{drawing_id: D}] on it, and this is its only
    effect; without a handle it changes nothing at all. *)
Theorem unsubscribeDrawing_without_entry (w : World) (D : string) :
  subscriptions (this w) !! D = None →
  let w' := after (unsubscribeDrawing D) w in
  unsubscribeDrawing D w = (Returned tt, w')
  ∧ this w' = this w
  ∧ heap w' = heap w
  ∧ emitted (unsubscribeDrawing D) w
    = match socket (this w) with
      | Some k => [Emit k "unsubscribe_drawing" D]
      | None => []
      end
  ∧ (socket (this w) = None → w' = w).
Proof.
  intros Hl w'.
  pose proof (unsubscribeDrawing_eq D w) as Heq.
  assert (Hw' : w' = (unsubscribeDrawing D w).2) by reflexivity.
  rewrite Heq in Hw'. simpl in Hw'. rewrite (delete_id _ _ Hl) in Hw'.
  split; [by rewrite Heq, Hw', (delete_id _ _ Hl)|].
  split; [rewrite Hw'; simpl; by destruct (this w)|].
  split; [by rewrite Hw'|]. split.
  - apply emitted_trace. fold w'. by rewrite Hw'.
  - intros Hs. rewrite Hw', Hs. simpl. rewrite app_nil_r.
    destruct w as [[s subs] h t]; simpl in *. by subst.
Qed.

(** With a connected socket the notification goes out; in the initial
    world, which has no handle, nothing happens. *)
Lemma unsubscribeDrawing_without_entry_witness :
  this (after (unsubscribeDrawing "drawing-9") world_connected) = this world_connected
  ∧ emitted (unsubscribeDrawing "drawing-9") world_connected
    = [Emit 0 "unsubscribe_drawing" "drawing-9"].
Proof.
  assert (Hl : subscriptions (this world_connected) !! "drawing-9" = None)
    by reflexivity.
  pose proof (unsubscribeDrawing_without_entry world_connected "drawing-9" Hl) as H.
  cbv zeta in H. destruct H as (_ & H2 & _ & H4 & _).
  split; [exact H2 | exact H4].
Defined.

(** ** Further properties of the registry and of the dispatch *)

Lemma omap_callee_calls data hs :
  omap callee (map (λ h, Call h data) hs) = hs.
Proof. induction hs as [|h hs IH]; [reflexivity|]. simpl. f_equal. exact IH. Qed.

(** X1. The [drawing_unlocked] listener returns without an error, changes
    nothing but the trace, and calls the handlers of the registry list of
    [D] one by one in list order, each with [{type: "unlocked", drawing_id:
    D}] and no [locked_by]; a lock message for [D] reaches the same
    handlers in the same order. *)
Theorem drawing_unlocked_calls_registered_in_order (w : World) (D U : string) :
  on_drawing_unlocked D w
    = (Returned tt,
       add_trace (map (λ h, Call h (unlocked_event D)) (registered D w)) w)
  ∧ (∀ i h, registered D w !! i = Some h ↔
            emitted (on_drawing_unlocked D) w !! i = Some (Call h (unlocked_event D)))
  ∧ omap callee (emitted (on_drawing_unlocked D) w) = registered D w
  ∧ omap callee (emitted (on_drawing_locked D U) w)
    = omap callee (emitted (on_drawing_unlocked D) w).
Proof.
  split; [apply on_drawing_unlocked_eq|].
  rewrite emitted_unlocked, emitted_locked, !omap_callee_calls.
  split; [|by split].
  intros i h. rewrite list_lookup_fmap. split.
  - by intros ->.
  - destruct (registered D w !! i) as [h'|]; simpl; [|done]. by intros [= ->].
Qed.

Lemma subscribeAll_snoc D hs h w :
  subscribeAll D (hs ++ [h]) w = after (subscribeDrawing D h) (subscribeAll D hs w).
Proof. unfold subscribeAll. by rewrite foldl_app. Qed.

(** X2. Registration order is dispatch order: after [subscribeDrawing] was
    called for [D] with the handlers [hs], first to last, the registry list
    of [D] is the former list followed by [hs], and a lock or unlock message
    for [D] calls exactly these handlers in this order. *)
Theorem subscribe_order_is_dispatch_order
    (w : World) (D U : string) (hs : list DrawingEventHandler) :
  let w' := subscribeAll D hs w in
  registered D w' = registered D w ++ hs
  ∧ omap callee (emitted (on_drawing_locked D U) w') = registered D w ++ hs
  ∧ omap callee (emitted (on_drawing_unlocked D) w') = registered D w ++ hs.
Proof.
  intros w'.
  assert (Hr : registered D w' = registered D w ++ hs).
  { unfold w'. induction hs as [|h hs IH] using rev_ind.
    - simpl. by rewrite app_nil_r.
    - rewrite subscribeAll_snoc, subscribeDrawing_registered, IH.
      by rewrite app_assoc. }
  rewrite emitted_locked, emitted_unlocked, !omap_callee_calls.
  by rewrite Hr.
Qed.

(** X3. [subscribeDrawing D H] touches the list of [D] only: the list of
    every other drawing id stays as it was, and a lock or unlock message for
    another id calls what it called before. *)
Theorem subscribeDrawing_keeps_other_ids
    (w : World) (D D' U : string) (H : DrawingEventHandler) :
  D ≠ D' →
  let w' := after (subscribeDrawing D H) w in
  subscriptions (this w') !! D' = subscriptions (this w) !! D'
  ∧ emitted (on_drawing_locked D' U) w' = emitted (on_drawing_locked D' U) w
  ∧ emitted (on_drawing_unlocked D') w' = emitted (on_drawing_unlocked D') w.
Proof.
  intros Hne w'.
  assert (Hl : subscriptions (this w') !! D' = subscriptions (this w) !! D').
  { unfold w'. rewrite subscribeDrawing_this. simpl. by rewrite lookup_insert_ne. }
  assert (Hr : registered D' w' = registered D' w) by (unfold registered; by rewrite Hl).
  rewrite !emitted_locked, !emitted_unlocked, Hr. by repeat split.
Qed.

(** "drawing-7" gets a third handler; a message for "drawing-42" still
    reaches nobody. *)
Lemma subscribeDrawing_keeps_other_ids_witness :
  emitted (on_drawing_locked "drawing-42" "alice")
          (after (subscribeDrawing "drawing-7" 3) world_7) = [].
Proof.
  assert (Hne : "drawing-7" ≠ "drawing-42") by discriminate.
  pose proof (subscribeDrawing_keeps_other_ids
                world_7 "drawing-7" "drawing-42" "alice" 3 Hne) as H.
  cbv zeta in H. destruct H as (_ & H2 & _). rewrite H2. reflexivity.
Defined.

(** X4. [unsubscribeDrawing D], whatever the registry holds: it returns
    without an error, deletes the entry of [D] and no other, keeps the
    handle and the socket objects, and its only effect is one
    [unsubscribe_drawing] for [D] on the handle (none without a handle).  A
    second call in a row deletes nothing more. *)
Theorem unsubscribeDrawing_deletes_one_entry (w : World) (D : string) :
  let w' := after (unsubscribeDrawing D) w in
  unsubscribeDrawing D w = (Returned tt, w')
  ∧ socket (this w') = socket (this w)
  ∧ heap w' = heap w
  ∧ subscriptions (this w') !! D = None
  ∧ (∀ D', D' ≠ D → subscriptions (this w') !! D' = subscriptions (this w) !! D')
  ∧ emitted (unsubscribeDrawing D) w
    = match socket (this w) with
      | Some k => [Emit k "unsubscribe_drawing" D]
      | None => []
      end
  ∧ subscriptions (this (after (unsubscribeDrawing D) w')) = subscriptions (this w').
Proof.
  intros w'.
  pose proof (unsubscribeDrawing_eq D w) as Heq.
  assert (Hw' : w' = (unsubscribeDrawing D w).2) by reflexivity.
  rewrite Heq in Hw'. simpl in Hw'.
  split; [by rewrite Heq, Hw'|]. split; [by rewrite Hw'|]. split; [by rewrite Hw'|].
  split; [rewrite Hw'; simpl; apply lookup_delete_eq|].
  split; [intros D' Hne; rewrite Hw'; simpl; by apply lookup_delete_ne|].
  split.
  - apply emitted_trace. fold w'. by rewrite Hw'.
  - rewrite unsubscribeDrawing_this. simpl. apply delete_id.
    rewrite Hw'. simpl. apply lookup_delete_eq.
Qed.

(** X5. Subscribing and then unsubscribing a drawing id leaves the registry
    without an entry for it, whatever was there: the registry is the
    former one when the id had no list, and the former list is lost when it
    had one.  The handle is not given back: one exists afterwards. *)
Theorem subscribe_then_unsubscribe (w : World) (D : string) (H : DrawingEventHandler) :
  let w' := after (unsubscribeDrawing D) (after (subscribeDrawing D H) w) in
  subscriptions (this w') = delete D (subscriptions (this w))
  ∧ (subscriptions (this w) !! D = None → subscriptions (this w') = subscriptions (this w))
  ∧ (is_Some (subscriptions (this w) !! D) → subscriptions (this w') ≠ subscriptions (this w))
  ∧ is_Some (socket (this w')).
Proof.
  intros w'.
  assert (Hs : subscriptions (this w') = delete D (subscriptions (this w))).
  { unfold w'. rewrite unsubscribeDrawing_this, subscribeDrawing_this. simpl.
    apply delete_insert_eq. }
  split; [exact Hs|]. split; [|split].
  - intros Hl. rewrite Hs. by apply delete_id.
  - intros [hs Hl] Heq. rewrite Hs in Heq.
    apply (f_equal (λ m, m !! D)) in Heq. rewrite lookup_delete_eq, Hl in Heq. done.
  - unfold w'. rewrite unsubscribeDrawing_this, subscribeDrawing_this. simpl.
    destruct (ensured_socket w) as [k ->]. by eexists.
Qed.


Lemma ensured_cases w : ensured w = w ∨ ensured w = opened w.
Proof. unfold ensured. destruct (isConnected w) as [[[]|] ?]; auto. Qed.

(** X7. [connect] with a handle whose socket is not connected opens one more
    socket and makes it the handle, without closing the old one: the old
    socket object stays as it was, keeps its listeners, and a message it
    delivers is still dispatched to the registry, which [connect] leaves
    alone. *)
Theorem connect_again_keeps_old_socket (w : World) (k : nat) :
  reachable w →
  socket (this w) = Some k →
  isConnected w = (Returned false, w) →
  let w' := after connect w in
  socket (this w') = Some (length (heap w))
  ∧ k ≠ length (heap w)
  ∧ heap w' = heap w ++ [fresh_socket]
  ∧ heap w' !! k = heap w !! k
  ∧ emitted connect w = [Io (length (heap w))]
  ∧ subscriptions (this w') = subscriptions (this w)
  ∧ (∀ msg, deliver k msg w' = listener msg w').
Proof.
  intros Hw Hs Hc w'.
  pose proof (connect_not_connected w Hc) as Heq.
  assert (Hw' : w' = opened w) by (unfold w'; by rewrite_after Heq).
  destruct (reachable_wf w Hw) as [Hlt _]. specialize (Hlt k Hs).
  assert (Hr' : reachable w').
  { destruct Hw as [ops ->]. exists (ops ++ [OpConnect]). by rewrite run_snoc. }
  split; [by rewrite Hw'|]. split; [lia|]. split; [by rewrite Hw'|].
  split; [rewrite Hw'; simpl; by apply lookup_app_l|].
  split; [apply emitted_trace; fold w'; by rewrite Hw'|].
  split; [by rewrite Hw'|].
  intros msg. apply deliver_reachable; [exact Hr'|].
  rewrite Hw'. simpl. rewrite length_app. lia.
Qed.

(** One subscription in the initial world leaves socket 0 pending; a
    [connect] before the transport reports it opens socket 1 beside it. *)
Lemma connect_again_keeps_old_socket_witness :
  socket (this (after connect world_pending)) = Some 1
  ∧ length (heap (after connect world_pending)) = 2.
Proof.
  assert (Hw : reachable world_pending)
    by (exists [OpSubscribeDrawing "drawing-7" 1]; reflexivity).
  assert (Hs : socket (this world_pending) = Some 0) by reflexivity.
  assert (Hc : isConnected world_pending = (Returned false, world_pending))
    by reflexivity.
  pose proof (connect_again_keeps_old_socket world_pending 0 Hw Hs Hc) as H.
  cbv zeta in H. destruct H as (H1 & _ & H3 & _).
  split; [exact H1|]. rewrite H3. reflexivity.
Defined.

(** X8. In every run the handle refers to a socket in the heap, and a
    registry entry, once there, holds at least one handler: the test
    [if (handlers)] of the listeners succeeds exactly when some handler
    gets called. *)
Theorem registry_entry_has_a_handler (ops : list Op) (D U : string) :
  let w := run ops initial in
  (∀ k, socket (this w) = Some k → k < length (heap w))
  ∧ (∀ hs, subscriptions (this w) !! D = Some hs → hs ≠ [])
  ∧ (is_Some (subscriptions (this w) !! D) ↔ emitted (on_drawing_locked D U) w ≠ [])
  ∧ (is_Some (subscriptions (this w) !! D) ↔ emitted (on_drawing_unlocked D) w ≠ []).
Proof.
  intros w.
  assert (Hw : reachable w) by (by exists ops).
  destruct (reachable_wf w Hw) as [Hs Hr].
  split; [exact Hs|]. split; [intros hs; apply Hr|].
  rewrite emitted_locked, emitted_unlocked. unfold registered.
  destruct (subscriptions (this w) !! D) as [hs|] eqn:Hl; simpl.
  - specialize (Hr D hs Hl). destruct hs as [|h hs]; [done|].
    split; (split; [by intros _ | by eauto]).
  - split; (split; [by intros [? ?] | done]).
Qed.

(** X9. In every run each socket of the heap carries each of the five
    listeners once, so a message it delivers runs the listener of its event
    exactly once; an index beyond the heap is no socket and delivers
    nothing. *)
Theorem socket_runs_listener_once (ops : list Op) (k : nat) (msg : Inbound) :
  let w := run ops initial in
  (k < length (heap w) → fires k msg w = 1 ∧ deliver k msg w = listener msg w)
  ∧ ((length (heap w) ≤ k)%nat → deliver k msg w = (Returned tt, w)).
Proof.
  intros w.
  assert (Hw : reachable w) by (by exists ops).
  split.
  - intros Hk. split; [|by apply deliver_reachable].
    unfold fires. destruct (lookup_lt_is_Some_2 _ _ Hk) as [o Ho]. rewrite Ho.
    rewrite (reachable_listeners w Hw k o Ho). by destruct msg.
  - intros Hk. unfold deliver. by rewrite (lookup_ge_None_2 _ _ Hk).
Qed.

(** X10. A delivery changes nothing but the trace: neither the handle, nor
    the registry, nor a socket object.  What it adds is console output or
    handler calls, never a message to the server and never a socket; for
    the [connect], [disconnect] and [error] events it is console output
    alone. *)
Theorem deliver_changes_only_the_trace (w : World) (k : nat) (msg : Inbound) :
  let w' := after (deliver k msg) w in
  this w' = this w
  ∧ heap w' = heap w
  ∧ trace w' = trace w ++ emitted (deliver k msg) w
  ∧ Forall (λ e, is_console e = true ∨ is_Some (callee e)) (emitted (deliver k msg) w)
  ∧ (msg = InConnect ∨ msg = InDisconnect ∨ (∃ error, msg = InError error) →
     Forall (λ e, is_console e = true) (emitted (deliver k msg) w)).
Proof.
  intros w'.
  pose proof (after_eq _ _ _ _ (deliver_eq k msg w)) as Hw'. fold w' in Hw'.
  rewrite (emitted_add_trace _ _ _ (after_eq _ _ _ _ (deliver_eq k msg w))).
  rewrite Hw'. split; [done|]. split; [done|]. split; [done|].
  split.
  - apply Forall_forall. intros e (es & He & Hes)%list_elem_of_join.
    apply elem_of_replicate in Hes as [-> _].
    destruct msg as [| |id u|id|err]; simpl in He.
    + apply list_elem_of_singleton in He as ->. by left.
    + apply list_elem_of_singleton in He as ->. by left.
    + apply list_elem_of_fmap in He as (h & -> & _). right. by eexists.
    + apply list_elem_of_fmap in He as (h & -> & _). right. by eexists.
    + apply list_elem_of_singleton in He as ->. by left.
  - intros Hmsg. apply Forall_forall. intros e (es & He & Hes)%list_elem_of_join.
    apply elem_of_replicate in Hes as [-> _].
    destruct Hmsg as [-> | [-> | [err ->]]]; simpl in He;
      apply list_elem_of_singleton in He as ->; reflexivity.
Qed.

(** ** After [disconnect] *)

Lemma disconnect_this w :
  reachable w → this (after disconnect w) = websocketClient.
Proof.
  intros Hw. destruct (socket (this w)) as [k|] eqn:Hs.
  - by rewrite_after (disconnect_some _ _ Hs).
  - rewrite_after (disconnect_none _ Hs).
    pose proof (no_socket_no_subscriptions w Hw Hs) as He.
    destruct w as [[s subs] h t]; simpl in *. by subst.
Qed.

Lemma disconnect_calls w handler data :
  Call handler data ∈ trace (after disconnect w) → Call handler data ∈ trace w.
Proof.
  intros Hin. destruct (step_calls OpDisconnect w handler data Hin)
    as [?|(k & msg & [=] & _)]. done.
Qed.

(** X11. After [disconnect], as long as [subscribeDrawing] is not called,
    the registry stays empty and no handler is called any more, whatever
    else happens: [connect] and [unsubscribeDrawing] calls, transport
    changes, messages delivered by any socket, the old ones included. *)
Theorem no_call_after_disconnect_until_subscribe (w : World) (ops : list Op) :
  reachable w →
  (∀ d h, OpSubscribeDrawing d h ∉ ops) →
  let w' := run ops (after disconnect w) in
  subscriptions (this w') = ∅
  ∧ (∀ handler data, Call handler data ∈ trace w' → Call handler data ∈ trace w).
Proof.
  intros Hw Hops. cbv zeta.
  induction ops as [|op ops IH] using rev_ind.
  - simpl. split; [by rewrite (disconnect_this w Hw)|]. apply disconnect_calls.
  - destruct IH as [IHs IHc].
    { intros d h Hin. apply (Hops d h). apply elem_of_app. by left. }
    rewrite run_snoc. set (w1 := run ops (after disconnect w)) in *. split.
    + rewrite step_this.
      destruct op as [| |d' h'|d'| |k up|k msg]; try exact IHs.
      * by rewrite ensured_subscriptions.
      * by destruct (socket (this w1)).
      * destruct (Hops d' h'). apply elem_of_app. right. apply list_elem_of_here.
      * simpl. rewrite IHs. apply delete_empty.
    + intros handler data Hin.
      destruct (step_calls _ _ _ _ Hin) as [Hold | (k & msg & -> & _ & Hnew)].
      * by apply IHc.
      * apply listener_effects_call in Hnew as [Hreg _].
        unfold registered in Hreg. rewrite IHs, lookup_empty in Hreg.
        by apply elem_of_nil in Hreg.
Qed.

(** "drawing-7" has two handlers; after [disconnect], deliveries by the old
    socket and by a new one, with a [connect] in between, find an empty
    registry. *)
Lemma no_call_after_disconnect_until_subscribe_witness :
  subscriptions (this (run ops_after_disconnect (after disconnect world_7))) = ∅.
Proof.
  assert (Hw : reachable world_7)
    by (exists [OpSubscribeDrawing "drawing-7" 1; OpSubscribeDrawing "drawing-7" 2];
        reflexivity).
  assert (Hops : ∀ d h, OpSubscribeDrawing d h ∉ ops_after_disconnect).
  { intros d h Hin. unfold ops_after_disconnect in Hin.
    repeat (apply elem_of_cons in Hin as [Heq|Hin]; [discriminate Heq|]).
    by apply elem_of_nil in Hin. }
  exact (proj1 (no_call_after_disconnect_until_subscribe
                  world_7 ops_after_disconnect Hw Hops)).
Defined.

(** ** The handle and the sockets of the heap *)

Lemma count_occ_snoc_ne (t : list Effect) (e x : Effect) :
  e ≠ x → count_occ Effect_eq_dec (t ++ [e]) x = count_occ Effect_eq_dec t x.
Proof.
  intros Hne. rewrite count_occ_app, count_occ_cons_neq, count_occ_nil by done. lia.
Qed.

Lemma handle_inv_opened w : handle_inv w → handle_inv (opened w).
Proof.
  intros (Ha & Hb & Hc & Hd). unfold opened, handle_inv. simpl.
  split; [|split; [|split]]; intros k.
  - rewrite elem_of_app, list_elem_of_singleton, length_app. simpl. split.
    + intros [Hin | [= ->]]; [apply Ha in Hin; lia | lia].
    + intros Hlt. destruct (decide (k = length (heap w))) as [->|Hne]; [by right|].
      left. apply Ha. lia.
  - intros [= <-]. rewrite length_app. simpl. split; [lia|].
    rewrite elem_of_app, list_elem_of_singleton.
    intros [Hin | [=]]. apply Hc in Hin. lia.
  - rewrite elem_of_app, list_elem_of_singleton, length_app. simpl.
    intros [Hin | [=]]. apply Hc in Hin. lia.
  - rewrite count_occ_snoc_ne by done. apply Hd.
Qed.

Lemma handle_inv_add_trace es w :
  (∀ e, e ∈ es → is_console e = true ∨ is_Some (callee e)
                 ∨ ∃ k ev d, e = Emit k ev d) →
  handle_inv w → handle_inv (add_trace es w).
Proof.
  intros Hes (Ha & Hb & Hc & Hd).
  assert (Hio : ∀ k, Io k ∈ trace w ++ es ↔ Io k ∈ trace w).
  { intros k. rewrite elem_of_app. split; [|by left]. intros [?|Hin]; [done|].
    destruct (Hes _ Hin) as [? | [[? ?] | (? & ? & ? & ?)]]; done. }
  assert (Hsd : ∀ k, SocketDisconnect k ∈ trace w ++ es ↔ SocketDisconnect k ∈ trace w).
  { intros k. rewrite elem_of_app. split; [|by left]. intros [?|Hin]; [done|].
    destruct (Hes _ Hin) as [? | [[? ?] | (? & ? & ? & ?)]]; done. }
  assert (Hcount : ∀ k, count_occ Effect_eq_dec (trace w ++ es) (SocketDisconnect k)
                        = count_occ Effect_eq_dec (trace w) (SocketDisconnect k)).
  { intros k. rewrite count_occ_app.
    rewrite (proj1 (count_occ_not_In Effect_eq_dec es (SocketDisconnect k))); [lia|].
    rewrite <- list_elem_of_In. intros Hin.
    destruct (Hes _ Hin) as [? | [[? ?] | (? & ? & ? & ?)]]; done. }
  unfold add_trace, handle_inv. simpl.
  split; [|split; [|split]]; intros k.
  - rewrite Hio. apply Ha.
  - rewrite Hsd. apply Hb.
  - rewrite Hsd. apply Hc.
  - rewrite Hcount. apply Hd.
Qed.

Lemma listener_effects_kind msg w e :
  e ∈ listener_effects msg w → is_console e = true ∨ is_Some (callee e).
Proof.
  destruct msg as [| |id u|id|err]; simpl;
    rewrite ?list_elem_of_singleton, ?list_elem_of_fmap.
  - intros ->. by left.
  - intros ->. by left.
  - intros (h & -> & _). right. by eexists.
  - intros (h & -> & _). right. by eexists.
  - intros ->. by left.
Qed.

Lemma handle_inv_set_subscriptions w m :
  handle_inv w →
  handle_inv {| this := {| socket := socket (this w); subscriptions := m |};
                heap := heap w; trace := trace w |}.
Proof. intros H. exact H. Qed.

Lemma handle_inv_alter (f : SocketObj → SocketObj) k w :
  handle_inv w →
  handle_inv {| this := this w; heap := alter f k (heap w); trace := trace w |}.
Proof.
  intros (Ha & Hb & Hc & Hd). unfold handle_inv. simpl. rewrite length_alter.
  split; [exact Ha|]. split; [exact Hb|]. split; [exact Hc | exact Hd].
Qed.

Lemma handle_inv_ensured w : handle_inv w → handle_inv (ensured w).
Proof.
  intros H. destruct (ensured_cases w) as [-> | ->]; [exact H|].
  by apply handle_inv_opened.
Qed.

Lemma handle_inv_disconnect w k :
  handle_inv w →
  socket (this w) = Some k →
  handle_inv {| this := websocketClient;
                heap := alter (λ o, {| connected := false; listeners := listeners o |})
                          k (heap w);
                trace := trace w ++ [SocketDisconnect k] |}.
Proof.
  intros (Ha & Hb & Hc & Hd) Hs. destruct (Hb k Hs) as [Hlt Hnot].
  unfold handle_inv. simpl. rewrite length_alter.
  split; [|split; [|split]]; intros k'.
  - rewrite elem_of_app, list_elem_of_singleton. rewrite <- Ha.
    split; [by intros [?|?] | by left].
  - done.
  - rewrite elem_of_app, list_elem_of_singleton.
    intros [Hin | [= ->]]; [by apply Hc | exact Hlt].
  - destruct (decide (k' = k)) as [->|Hne].
    + rewrite count_occ_app, count_occ_cons_eq, count_occ_nil by reflexivity.
      rewrite (proj1 (count_occ_not_In Effect_eq_dec (trace w) (SocketDisconnect k)));
        [lia|]. by rewrite <- list_elem_of_In.
    + rewrite count_occ_snoc_ne by congruence. apply Hd.
Qed.

Lemma reachable_handle_inv w : reachable w → handle_inv w.
Proof.
  intros Hw. induction Hw as [|w op _ IH] using reachable_ind.
  - unfold handle_inv, initial. simpl.
    split; [|split; [|split]]; intros k; try done.
    + split; [by intros ?%elem_of_nil | lia].
    + by intros ?%elem_of_nil.
    + lia.
  - destruct op as [| |d h|d| |k up|k msg]; simpl.
    + rewrite_after (connect_eq w). by apply handle_inv_ensured.
    + destruct (socket (this w)) as [k|] eqn:Hs.
      * rewrite_after (disconnect_some _ _ Hs). by apply handle_inv_disconnect.
      * by rewrite_after (disconnect_none _ Hs).
    + destruct (ensured_socket w) as [k Hk].
      rewrite_after (subscribeDrawing_eq _ _ _ _ Hk).
      pose proof (handle_inv_ensured w IH) as He.
      apply (handle_inv_set_subscriptions _
               (<[d := registered d w ++ [h]]> (subscriptions (this w)))) in He.
      apply (handle_inv_add_trace [Emit k "subscribe_drawing" d]) in He.
      * unfold add_trace in He. simpl in He. by rewrite Hk in He.
      * intros e ->%list_elem_of_singleton. right. right. by do 3 eexists.
    + rewrite_after (unsubscribeDrawing_eq d w).
      pose proof (handle_inv_set_subscriptions _
                    (delete d (subscriptions (this w))) IH) as He.
      apply (handle_inv_add_trace
               match socket (this w) with
               | Some k => [Emit k "unsubscribe_drawing" d]
               | None => []
               end) in He; [exact He|].
      intros e. destruct (socket (this w)).
      * intros ->%list_elem_of_singleton. right. right. by do 3 eexists.
      * by intros ?%elem_of_nil.
    + unfold after, mbind, M_bind. by destruct (isConnected_pure w) as [b ->].
    + unfold after. simpl. by apply handle_inv_alter.
    + rewrite_after (deliver_eq k msg w). apply handle_inv_add_trace; [|exact IH].
      intros e (es & He & Hes)%list_elem_of_join.
      apply elem_of_replicate in Hes as [-> _].
      destruct (listener_effects_kind _ _ _ He); auto.
Qed.

(** X12. In every run the sockets that [io] has opened are the sockets of
    the heap; the handle, when there is one, is one of them, and
    [disconnect] has not closed it: the client never keeps a socket it has
    disconnected.  [disconnect] closes only sockets that [io] has opened,
    and closes none of them twice. *)
Theorem handle_is_an_open_socket (ops : list Op) :
  let w := run ops initial in
  (∀ k, socket (this w) = Some k →
        Io k ∈ trace w ∧ SocketDisconnect k ∉ trace w)
  ∧ (∀ k, Io k ∈ trace w ↔ k < length (heap w))
  ∧ (∀ k, SocketDisconnect k ∈ trace w → Io k ∈ trace w)
  ∧ (∀ k, (count_occ Effect_eq_dec (trace w) (SocketDisconnect k) ≤ 1)%nat).
Proof.
  intros w.
  assert (Hw : reachable w) by (by exists ops).
  destruct (reachable_handle_inv w Hw) as (Ha & Hb & Hc & Hd).
  split; [|split; [exact Ha|split; [|exact Hd]]].
  - intros k Hs. destruct (Hb k Hs) as [Hlt Hnot]. split; [by apply Ha | exact Hnot].
  - intros k Hin. apply Ha. by apply Hc.
Qed.

(** * The PDF viewer component: paging, rotation and loading

    The state cells of [PDFViewer] and the handlers of its control bar.  A
    handler is a closure over the cells of the render it belongs to; one
    click runs it and the next render sees the cells it has set, so a
    handler is a function from the state to the next state, together with
    the calls of the [onPageChange] prop it makes.  Page numbers and the
    rotation are integers.  The [scale] cell, a floating-point number, the
    zoom handlers that write it, the canvas rendering and the console
    output are left out. *)

Module PDFViewer.

Local Open Scope Z_scope.

(** The [useState] cells; the loaded [PDFDocumentProxy] is kept by its
    [numPages]. *)
Record State : Type := {
  pdf : option Z;
  currentPage : Z;
  totalPages : Z;
  rotation : Z;
  isLoading : bool;
}.

Definition setPdf (v : option Z) (s : State) : State :=
  {| pdf := v; currentPage := currentPage s; totalPages := totalPages s;
     rotation := rotation s; isLoading := isLoading s |}.

Definition setCurrentPage (v : Z) (s : State) : State :=
  {| pdf := pdf s; currentPage := v; totalPages := totalPages s;
     rotation := rotation s; isLoading := isLoading s |}.

Definition setTotalPages (v : Z) (s : State) : State :=
  {| pdf := pdf s; currentPage := currentPage s; totalPages := v;
     rotation := rotation s; isLoading := isLoading s |}.

Definition setRotation (v : Z) (s : State) : State :=
  {| pdf := pdf s; currentPage := currentPage s; totalPages := totalPages s;
     rotation := v; isLoading := isLoading s |}.

Definition setIsLoading (v : bool) (s : State) : State :=
  {| pdf := pdf s; currentPage := currentPage s; totalPages := totalPages s;
     rotation := rotation s; isLoading := v |}.

(** The first render: [pageNumber = 1] by default, [useState(pageNumber)],
    [useState(0)], [useState(0)], [useState(true)]. *)
Definition mount (pageNumber : option Z) : State :=
  {| pdf := None; currentPage := default 1 pageNumber; totalPages := 0;
     rotation := 0; isLoading := true |}.

(** How [pdfjsLib.getDocument(pdfUrl).promise] settles. *)
Inductive LoadResult : Type :=
| Resolved (numPages : Z)
| Rejected.

(** [loadPdf], from its start to the end of its [try] or [catch]. *)
Definition loadPdf (r : LoadResult) (s : State) : State :=
  let s := setIsLoading true s in
  match r with
  | Resolved numPages =>
      setIsLoading false (setTotalPages numPages (setPdf (Some numPages) s))
  | Rejected => setIsLoading false s
  end.

(** [onPageChange?.(newPage)]: the pages handed to the prop, none when the
    prop is absent. *)
Definition call_onPageChange (onPageChange : bool) (newPage : Z) : list Z :=
  if onPageChange then [newPage] else [].

Definition handlePrevPage (onPageChange : bool) (s : State) : State * list Z :=
  if bool_decide (currentPage s > 1) then
    let newPage := currentPage s - 1 in
    (setCurrentPage newPage s, call_onPageChange onPageChange newPage)
  else (s, []).

Definition handleNextPage (onPageChange : bool) (s : State) : State * list Z :=
  if bool_decide (currentPage s < totalPages s) then
    let newPage := currentPage s + 1 in
    (setCurrentPage newPage s, call_onPageChange onPageChange newPage)
  else (s, []).

(** [setRotation((prev) => (prev + 90) % 360)]; [%] truncates like [Z.rem]. *)
Definition handleRotate (s : State) : State :=
  setRotation (Z.rem (rotation s + 90) 360) s.

(** What the render shows: the spinner while loading, and otherwise the
    control bar with its two page buttons and the label between them. *)
Definition controlsShown (s : State) : bool := negb (isLoading s).


(** [disabled={currentPage === totalPages}] *)
Definition nextDisabled (s : State) : bool :=
  bool_decide (currentPage s = totalPages s).

Inductive Click : Type := ClickPrev | ClickNext | ClickRotate.

Definition click (onPageChange : bool) (c : Click) (s : State) : State * list Z :=
  match c with
  | ClickPrev => handlePrevPage onPageChange s
  | ClickNext => handleNextPage onPageChange s
  | ClickRotate => (handleRotate s, [])
  end.

(** A sequence of clicks: the last state and all pages handed to
    [onPageChange], oldest first. *)
Fixpoint clicks (onPageChange : bool) (cs : list Click) (s : State) : State * list Z :=
  match cs with
  | [] => (s, [])
  | c :: cs' =>
      let (s1, out1) := click onPageChange c s in
      let (s2, out2) := clicks onPageChange cs' s1 in
      (s2, out1 ++ out2)
  end.

(** What happens to a mounted viewer: a load settles, or a control is
    clicked. *)
Inductive Event : Type :=
| Load (r : LoadResult)
| Press (c : Click).

Definition handle (onPageChange : bool) (e : Event) (s : State) : State :=
  match e with
  | Load r => loadPdf r s
  | Press c => (click onPageChange c s).1
  end.

Definition events (onPageChange : bool) (es : list Event) (s : State) : State :=
  foldl (λ s e, handle onPageChange e s) s es.

(** The page count of the loaded document, 0 when none is loaded. *)
Definition numPages (s : State) : Z := default 0 (pdf s).

Definition sample : State :=
  {| pdf := Some 5; currentPage := 2; totalPages := 5; rotation := 0;
     isLoading := false |}.

(** ** Paging *)

Lemma click_frame cb c s :
  let s' := (click cb c s).1 in
  totalPages s' = totalPages s ∧ pdf s' = pdf s ∧ isLoading s' = isLoading s
  ∧ (1 ≤ currentPage s ≤ totalPages s → 1 ≤ currentPage s' ≤ totalPages s')
  ∧ (1 ≤ currentPage s → 1 ≤ currentPage s').
Proof.
  destruct c; simpl; unfold handlePrevPage, handleNextPage, handleRotate;
    repeat case_bool_decide; simpl; repeat split; lia.
Qed.

(** X13. Starting with a current page between 1 and the page count, every
    sequence of clicks on the previous, next and rotate buttons leaves the
    current page between 1 and the page count; the clicks change neither
    the page count, nor the document, nor the loading flag. *)
Theorem clicks_keep_page_in_range (cb : bool) (cs : list Click) (s : State) :
  1 ≤ currentPage s ≤ totalPages s →
  let s' := (clicks cb cs s).1 in
  1 ≤ currentPage s' ≤ totalPages s'
  ∧ totalPages s' = totalPages s
  ∧ pdf s' = pdf s
  ∧ isLoading s' = isLoading s.
Proof.
  revert s. induction cs as [|c cs IH]; intros s Hr; simpl; [by auto|].
  destruct (click cb c s) as [s1 out1] eqn:Hc.
  pose proof (click_frame cb c s) as Hf. rewrite Hc in Hf. simpl in Hf.
  destruct Hf as (Ht & Hp & Hl & Hrange & _).
  specialize (IH s1 (Hrange Hr)).
  destruct (clicks cb cs s1) as [s2 out2]. simpl in *.
  destruct IH as (? & ? & ? & ?). repeat split; try lia; congruence.
Qed.

(** Page 2 of 5: four clicks on next and a rotation end within the five
    pages. *)
Lemma clicks_keep_page_in_range_witness :
  1 ≤ currentPage
        (clicks true [ClickNext; ClickNext; ClickRotate; ClickNext; ClickNext] sample).1
    ≤ 5.
Proof.
  assert (Hr : 1 ≤ currentPage sample ≤ totalPages sample) by (simpl; lia).
  pose proof (clicks_keep_page_in_range true
                [ClickNext; ClickNext; ClickRotate; ClickNext; ClickNext] sample Hr) as H.
  cbv zeta in H. destruct H as (H1 & H2 & _). rewrite H2 in H1. exact H1.
Defined.


(** X15. The [onPageChange] prop follows the viewer: over any sequence of
    clicks the last page handed to it is the page the viewer ends on, and
    when nothing was handed to it the page has not moved.  Whether the prop
    is there or not makes no difference to the state. *)
Theorem onPageChange_follows_current_page (cs : list Click) (s : State) :
  currentPage (clicks true cs s).1
    = default (currentPage s) (last (clicks true cs s).2)
  ∧ clicks false cs s = ((clicks true cs s).1, []).
Proof.
  revert s. induction cs as [|c cs IH]; intros s; simpl; [done|].
  assert (Hc : currentPage (click true c s).1
               = default (currentPage s) (last (click true c s).2)
               ∧ click false c s = ((click true c s).1, [])).
  { destruct c; simpl; unfold handlePrevPage, handleNextPage;
      repeat case_bool_decide; simpl; done. }
  destruct Hc as [Hc1 Hc2]. rewrite Hc2.
  destruct (click true c s) as [s1 out1]. simpl in *.
  destruct (IH s1) as [IH1 IH2]. rewrite IH2.
  destruct (clicks true cs s1) as [s2 out2]. simpl in *.
  split; [|done]. rewrite last_app, IH1.
  destruct (last out2); simpl; [done | exact Hc1].
Qed.



(** ** Rotation *)

Lemma rotate_iter (n : nat) (s : State) :
  0 ≤ rotation s < 360 →
  Nat.iter n handleRotate s
  = setRotation ((rotation s + 90 * Z.of_nat n) mod 360) s.
Proof.
  intros Hr. induction n as [|n IH].
  - simpl. rewrite Z.add_0_r, Z.mod_small by lia. by destruct s.
  - rewrite Nat.iter_succ, IH. unfold handleRotate, setRotation. simpl. f_equal.
    pose proof (Z.mod_pos_bound (rotation s + 90 * Z.of_nat n) 360).
    rewrite Z.rem_mod_nonneg by lia.
    rewrite Zplus_mod_idemp_l. f_equal. lia.
Qed.

(** X18. With a rotation from 0 up to, but not including, 360, [n] clicks
    on the rotate button leave the rotation at [(r + 90 n) mod 360] and
    change no other cell, so four clicks restore the state. *)
Theorem rotate_cycles_after_four_clicks (s : State) :
  0 ≤ rotation s < 360 →
  (∀ n, rotation (Nat.iter n handleRotate s)
        = (rotation s + 90 * Z.of_nat n) mod 360)
  ∧ (∀ n, currentPage (Nat.iter n handleRotate s) = currentPage s
          ∧ totalPages (Nat.iter n handleRotate s) = totalPages s
          ∧ pdf (Nat.iter n handleRotate s) = pdf s
          ∧ isLoading (Nat.iter n handleRotate s) = isLoading s)
  ∧ Nat.iter 4 handleRotate s = s.
Proof.
  intros Hr. split; [|split].
  - intros n. by rewrite (rotate_iter n s Hr).
  - intros n. by rewrite (rotate_iter n s Hr).
  - rewrite (rotate_iter 4 s Hr).
    replace (rotation s + 90 * Z.of_nat 4) with (rotation s + 1 * 360) by lia.
    rewrite Z_mod_plus_full, Z.mod_small by lia. by destruct s.
Qed.

(** From the upright page, four clicks are a full turn. *)
Lemma rotate_cycles_after_four_clicks_witness :
  rotation (Nat.iter 3 handleRotate sample) = 270
  ∧ Nat.iter 4 handleRotate sample = sample.
Proof.
  assert (Hr : 0 ≤ rotation sample < 360) by (simpl; lia).
  destruct (rotate_cycles_after_four_clicks sample Hr) as (H1 & _ & H3).
  split; [rewrite (H1 3%nat); reflexivity | exact H3].
Defined.

(** ** Loading *)

(** X19. A load that settles, either way, ends the loading state and moves
    neither the current page nor the rotation.  When it resolves, the page
    count is the one of the new document; when it rejects, the document
    and the page count of before stay.  So the current page can end
    beyond the page count (a shorter document, or no document after a
    failed first load): then the next button is not disabled, and its
    handler does nothing. *)
Theorem load_never_moves_current_page (cb : bool) (r : LoadResult) (s : State) :
  let s' := loadPdf r s in
  currentPage s' = currentPage s
  ∧ rotation s' = rotation s
  ∧ isLoading s' = false
  ∧ controlsShown s' = true
  ∧ match r with
    | Resolved n => pdf s' = Some n ∧ totalPages s' = n
    | Rejected => pdf s' = pdf s ∧ totalPages s' = totalPages s
    end
  ∧ (totalPages s' < currentPage s' →
     nextDisabled s' = false ∧ handleNextPage cb s' = (s', [])).
Proof.
  cbv zeta. split; [by destruct r|]. split; [by destruct r|].
  split; [by destruct r|]. split; [by destruct r|]. split; [by destruct r|].
  intros Hlt. unfold nextDisabled, handleNextPage.
  split; [apply bool_decide_eq_false; lia|].
  case_bool_decide; [lia | done].
Qed.

(** ** A mounted viewer *)

Lemma events_snoc cb es e s :
  events cb (es ++ [e]) s = handle cb e (events cb es s).
Proof. unfold events. by rewrite foldl_app. Qed.

(** X20. Whatever loads settle and whatever is clicked after the viewer is
    mounted: the rotation is 0, 90, 180 or 270; the page count is the one
    of the loaded document, and 0 when there is none; a current page that
    started at 1 or above (1 is the default) never gets below 1. *)
Theorem mounted_viewer_invariants
    (cb : bool) (pageNumber : option Z) (es : list Event) :
  let s := events cb es (mount pageNumber) in
  (rotation s = 0 ∨ rotation s = 90 ∨ rotation s = 180 ∨ rotation s = 270)
  ∧ totalPages s = numPages s
  ∧ (1 ≤ default 1 pageNumber → 1 ≤ currentPage s).
Proof.
  cbv zeta. induction es as [|e es IH] using rev_ind.
  - simpl. unfold numPages. simpl. auto.
  - rewrite events_snoc. destruct IH as (Hrot & Htot & Hpage).
    set (s := events cb es (mount pageNumber)) in *.
    destruct e as [[n|]|c]; simpl.
    + unfold numPages. simpl. auto.
    + unfold numPages in *. simpl. auto.
    + pose proof (click_frame cb c s) as (Ht & Hp & _ & _ & Hlow). simpl in *.
      split; [|split].
      * destruct c; simpl; unfold handlePrevPage, handleNextPage;
          repeat case_bool_decide; simpl; try exact Hrot.
        destruct Hrot as [-> | [-> | [-> | ->]]]; simpl; auto.
      * unfold numPages in *. by rewrite Ht, Hp.
      * intros H1. by apply Hlow, Hpage.
Qed.

End PDFViewer.
